(** * Shallow embedding of oxidize.ai's [math::vector] and [math::matrix]

    [Vector<T>] and [Matrix<T>] are generic over the element type; the
    Rust trait bounds ([Default], [From<i32>], [Add], [Sub], [Mul], [Div])
    are type classes here.  A [Vec<T>] is a [list T], [usize] is [nat];
    a product of two [usize] dimensions is checked against [usize::MAX]
    and panics on overflow, as in a build with overflow checks (the
    default debug profile).  A [Vec] held in memory is taken to have
    fewer than [2^64] elements (an allocation fails long before), so
    products bounded by such a length are left unchecked: the element
    count [num_rows * num_cols] of [from_columns], the capacity
    [rows * cols] of [transpose], and the indices [row * cols + col].

    Effects: a Rust function returning [Result<_, String>] returns
    [Ok]/[Err]; a panic (slice or [Vec] index out of range) is [Panic].
    Methods taking [&mut self] return the new value of [self] next to
    their result. *)

From Stdlib Require Import String List Arith Lia Bool ZArith NArith.
Import ListNotations.

(** ** Outcomes of a Rust computation *)

Inductive outcome (A : Type) : Type :=
| Ok (a : A)
| Err (msg : string)
| Panic.
Arguments Ok {A} a.
Arguments Err {A} msg.
Arguments Panic {A}.

Definition bind {A B} (x : outcome A) (f : A -> outcome B) : outcome B :=
  match x with
  | Ok a => f a
  | Err s => Err s
  | Panic => Panic
  end.

Notation "x <- m ;; k" := (bind m (fun x => k))
  (at level 61, m at next level, right associativity).

(** A [for] loop whose body may fail or panic, threading an accumulator. *)
Fixpoint foldM {A B} (f : A -> B -> outcome A) (l : list B) (a : A) : outcome A :=
  match l with
  | [] => Ok a
  | b :: l' => bind (f a b) (foldM f l')
  end.

(** [.iter().map(f).collect()] where [f] may panic. *)
Fixpoint mapM {A B} (f : A -> outcome B) (l : list A) : outcome (list B) :=
  match l with
  | [] => Ok []
  | a :: l' => b <- f a;; bs <- mapM f l';; Ok (b :: bs)
  end.

(** ** [Vec<T>] indexing *)

(** [v[i]] as an rvalue: panics when [i >= v.len()]. *)
Definition vec_index {T} (v : list T) (i : nat) : outcome T :=
  match nth_error v i with
  | Some x => Ok x
  | None => Panic
  end.

Fixpoint replace_nth {T} (v : list T) (i : nat) (x : T) : list T :=
  match v, i with
  | [], _ => []
  | _ :: v', 0 => x :: v'
  | y :: v', S i' => y :: replace_nth v' i' x
  end.

(** [v[i] = x]: panics when [i >= v.len()]. *)
Definition vec_store {T} (v : list T) (i : nat) (x : T) : outcome (list T) :=
  if i <? length v then Ok (replace_nth v i x) else Panic.

(** ** [usize] arithmetic *)

(** [usize::MAX] on a 64-bit target. *)
Definition usize_max : N := 18446744073709551615%N.

Definition fits_usizeb (n : nat) : bool := (N.of_nat n <=? usize_max)%N.

(** [n] is representable as a [usize]. *)
Definition fits_usize (n : nat) : Prop := fits_usizeb n = true.

(** [a * b] on [usize]: panics with "attempt to multiply with overflow". *)
Definition mul_usize (a b : nat) : outcome nat :=
  if fits_usizeb (a * b) then Ok (a * b) else Panic.

(** ** The trait bounds of the element type *)

Class Default (T : Type) := default : T.
Class FromI32 (T : Type) := from_i32 : Z -> T.
Class TAdd (T : Type) := add : T -> T -> T.
Class TSub (T : Type) := sub : T -> T -> T.
Class TMul (T : Type) := mul : T -> T -> T.
Class TDiv (T : Type) := div : T -> T -> T.
Class PartialOrd (T : Type) := partial_cmp : T -> T -> option comparison.

(** ** [src/math/vector.rs] *)

Module Vector.

Record Vector (T : Type) := mkVector { data : list T }.
Arguments mkVector {T} data.
Arguments data {T} v.

Section Vector.
Context {T : Type}.

Definition len (v : Vector T) : nat := length (data v).

(** [Vector::set] *)
Definition set (v : Vector T) (index : nat) (value : T) : outcome unit * Vector T :=
  if len v <=? index then (Err "Index is out of bounds"%string, v)
  else match vec_store (data v) index value with
       | Ok d => (Ok tt, mkVector d)
       | Err e => (Err e, v)
       | Panic => (Panic, v)
       end.

(** [Vector::zip_map]: [self.data.iter().zip(other.data.iter()).map(..)] *)
Definition zip_map {U} (self other : Vector T) (f : T -> T -> U) : Vector U :=
  mkVector (map (fun p => f (fst p) (snd p)) (combine (data self) (data other))).

(** The body shared by [AddAssign], [SubAssign], [MulAssign] and
    [DivAssign]: [for (a, b) in self.data.iter_mut().zip(rhs.data.iter())
    { *a op= *b }]. *)
Fixpoint zip_assign (op : T -> T -> T) (a b : list T) : list T :=
  match a, b with
  | x :: a', y :: b' => op x y :: zip_assign op a' b'
  | _, _ => a
  end.

Definition add_assign `{TAdd T} (self rhs : Vector T) : Vector T :=
  mkVector (zip_assign add (data self) (data rhs)).
Definition sub_assign `{TSub T} (self rhs : Vector T) : Vector T :=
  mkVector (zip_assign sub (data self) (data rhs)).
Definition mul_assign `{TMul T} (self rhs : Vector T) : Vector T :=
  mkVector (zip_assign mul (data self) (data rhs)).
Definition div_assign `{TDiv T} (self rhs : Vector T) : Vector T :=
  mkVector (zip_assign div (data self) (data rhs)).

Definition new : Vector T := mkVector [].

Definition from_elem (elem : T) (len : nat) : Vector T := mkVector (repeat elem len).

Definition is_empty (v : Vector T) : bool :=
  match data v with [] => true | _ => false end.

(** [Vector::get]: [self.data.get(index)]. *)
Definition get (v : Vector T) (index : nat) : option T := nth_error (data v) index.

Definition element_wise_apply (v : Vector T) (f : T -> T) : Vector T :=
  mkVector (map f (data v)).

Definition map {U} (v : Vector T) (f : T -> U) : Vector U :=
  mkVector (List.map f (data v)).

(** [Vector::sum]: [fold(T::default(), |acc, x| acc + x)]. *)
Definition sum `{Default T} `{TAdd T} (v : Vector T) : T :=
  fold_left (fun acc x => add acc x) (data v) default.

(** The comparator [|a, b| a.partial_cmp(b).unwrap()]: panics when the
    two values are not comparable. *)
Definition cmp_unwrap `{PartialOrd T} (a b : T) : outcome comparison :=
  match partial_cmp a b with Some c => Ok c | None => Panic end.

(** [Vector::min]: [Iterator::min_by], i.e. [reduce] with
    [cmp::min_by], which keeps the accumulator unless it compares
    [Greater]. *)
Definition min `{PartialOrd T} (v : Vector T) : outcome (option T) :=
  match data v with
  | [] => Ok None
  | x :: l =>
      r <- foldM (fun acc y => c <- cmp_unwrap acc y;;
                               Ok (match c with Gt => y | _ => acc end)) l x;;
      Ok (Some r)
  end.

(** [Vector::max]: [Iterator::max_by], i.e. [reduce] with
    [cmp::max_by], which takes the new element unless the accumulator
    compares [Greater]. *)
Definition max `{PartialOrd T} (v : Vector T) : outcome (option T) :=
  match data v with
  | [] => Ok None
  | x :: l =>
      r <- foldM (fun acc y => c <- cmp_unwrap acc y;;
                               Ok (match c with Gt => acc | _ => y end)) l x;;
      Ok (Some r)
  end.

(** [Vector::to_array::<N>]: an [[T; N]] is a list of length [N]. *)
Definition to_array `{Default T} (N : nat) (v : Vector T) : outcome (option (list T)) :=
  if len v =? N then
    arr <- foldM (fun arr iv => vec_store arr (fst iv) (snd iv))
                 (combine (seq 0 (len v)) (data v)) (repeat default N);;
    Ok (Some arr)
  else Ok None.

(** [impl Add], [Sub], [Mul], [Div] for [Vector]: [zip] then [map]. *)
Definition op_add `{TAdd T} (a b : Vector T) : Vector T :=
  mkVector (List.map (fun p => add (fst p) (snd p)) (combine (data a) (data b))).
Definition op_sub `{TSub T} (a b : Vector T) : Vector T :=
  mkVector (List.map (fun p => sub (fst p) (snd p)) (combine (data a) (data b))).
Definition op_mul `{TMul T} (a b : Vector T) : Vector T :=
  mkVector (List.map (fun p => mul (fst p) (snd p)) (combine (data a) (data b))).
Definition op_div `{TDiv T} (a b : Vector T) : Vector T :=
  mkVector (List.map (fun p => div (fst p) (snd p)) (combine (data a) (data b))).

End Vector.
End Vector.

(** ** [src/math/matrix.rs] *)

Module Matrix.

Record Matrix (T : Type) := mkMatrix { rows : nat; cols : nat; data : list T }.
Arguments mkMatrix {T} rows cols data.
Arguments rows {T} m.
Arguments cols {T} m.
Arguments data {T} m.

Section Matrix.
Context {T : Type} `{Default T} `{FromI32 T} `{TAdd T} `{TSub T} `{TMul T}.

(** The data-model invariant [data.len() == rows * cols]. *)
Definition wf (m : Matrix T) : Prop := length (data m) = rows m * cols m.

(** [impl Index<(usize, usize)>]: [&self.data[row * self.cols + col]]. *)
Definition index (m : Matrix T) (row col : nat) : outcome T :=
  vec_index (data m) (row * cols m + col).

(** [impl IndexMut<(usize, usize)>] used as an assignment target. *)
Definition index_store (m : Matrix T) (row col : nat) (x : T) : outcome (Matrix T) :=
  d <- vec_store (data m) (row * cols m + col) x;;
  Ok (mkMatrix (rows m) (cols m) d).

(** [Matrix::new]: [Vec::with_capacity(rows * cols)] is an empty vector. *)
Definition new (rows cols : nat) : outcome (Matrix T) :=
  _ <- mul_usize rows cols;;
  Ok (mkMatrix rows cols []).

(** [Matrix::zeroes]: [vec![T::default(); rows * cols]]. *)
Definition zeroes (rows cols : nat) : outcome (Matrix T) :=
  n <- mul_usize rows cols;;
  Ok (mkMatrix rows cols (repeat default n)).

Definition ones (rows cols : nat) : outcome (Matrix T) :=
  n <- mul_usize rows cols;;
  Ok (mkMatrix rows cols (repeat (from_i32 1%Z) n)).

(** [Matrix::identity]; the index [i * size + i] of [matrix[(i, i)]] is
    below [size * size], so it cannot overflow once [zeroes] succeeded. *)
Definition identity (size : nat) : outcome (Matrix T) :=
  matrix <- zeroes size size;;
  foldM (fun matrix i => index_store matrix i i (from_i32 1%Z))
        (seq 0 size) matrix.

Definition from_vec (rows cols : nat) (d : list T) : outcome (Matrix T) :=
  n <- mul_usize rows cols;;
  if negb (length d =? n)
  then Err "Data length does not match specified dimensions."%string
  else Ok (mkMatrix rows cols d).

Definition from_rows (rs : list (Vector.Vector T)) : outcome (Matrix T) :=
  match rs with
  | [] => Err "Cannot create matrix from empty vector of rows"%string
  | r0 :: _ =>
      let num_rows := length rs in
      let num_cols := Vector.len r0 in
      if negb (forallb (fun row => Vector.len row =? num_cols) rs)
      then Err "All rows must be the same length"%string
      else Ok (mkMatrix num_rows num_cols (concat (map Vector.data rs)))
  end.

Definition from_columns (cs : list (Vector.Vector T)) : outcome (Matrix T) :=
  match cs with
  | [] => Err "Cannot create matrix from empty vector of colmuns"%string
  | c0 :: _ =>
      let num_rows := Vector.len c0 in
      let num_cols := length cs in
      if negb (forallb (fun col => Vector.len col =? num_rows) cs)
      then Err "All columns must be the same length"%string
      else
        d <- foldM (fun d ic =>
               foldM (fun d iv => vec_store d (fst iv * num_cols + fst ic) (snd iv))
                     (combine (seq 0 (Vector.len (snd ic))) (Vector.data (snd ic))) d)
             (combine (seq 0 (length cs)) cs)
             (repeat default (num_rows * num_cols));;
        Ok (mkMatrix num_rows num_cols d)
  end.

(** [Matrix::set] *)
Definition set (m : Matrix T) (row col : nat) (value : T) : outcome unit * Matrix T :=
  if (rows m <=? row) || (cols m <=? col)
  then (Err "Index out of bounds"%string, m)
  else match index_store m row col value with
       | Ok m' => (Ok tt, m')
       | Err e => (Err e, m)
       | Panic => (Panic, m)
       end.

(** [Matrix::row]: [self.data[start..end].to_vec()], which panics when
    [end > self.data.len()]. *)
Definition row (m : Matrix T) (i : nat) : outcome (option (Vector.Vector T)) :=
  if rows m <=? i then Ok None
  else
    let start := i * cols m in
    let end_ := start + cols m in
    if end_ <=? length (data m)
    then Ok (Some (Vector.mkVector (firstn (end_ - start) (skipn start (data m)))))
    else Panic.

Definition transpose (m : Matrix T) : outcome (Matrix T) :=
  td <- foldM (fun td col =>
           foldM (fun td row => x <- index m row col;; Ok (td ++ [x]))
                 (seq 0 (rows m)) td)
         (seq 0 (cols m)) [];;
  Ok (mkMatrix (cols m) (rows m) td).

Definition reshape (m : Matrix T) (new_rows new_cols : nat) : outcome (Matrix T) :=
  p <- mul_usize (rows m) (cols m);;
  q <- mul_usize new_rows new_cols;;
  if negb (p =? q)
  then Err "Cannot reshape matrix"%string
  else Ok (mkMatrix new_rows new_cols (data m)).

(** [impl Add for Matrix] *)
Definition op_add (a b : Matrix T) : outcome (Matrix T) :=
  if negb (rows a =? rows b) || negb (cols a =? cols b)
  then Err "Cannot add 2 matrices with incompatible dimensions"%string
  else Ok (mkMatrix (rows a) (cols a)
             (map (fun p => add (fst p) (snd p)) (combine (data a) (data b)))).

(** [impl Sub for Matrix] *)
Definition op_sub (a b : Matrix T) : outcome (Matrix T) :=
  if negb (rows a =? rows b) || negb (cols a =? cols b)
  then Err "Cannot substract 2 matrices with incompatible matrices"%string
  else Ok (mkMatrix (rows a) (cols a)
             (map (fun p => sub (fst p) (snd p)) (combine (data a) (data b)))).

(** One output cell of [impl Mul for Matrix]:
    [(0..self.cols).map(|k| self[(i, k)] * rhs[(k, j)]).fold(T::default(), |acc, x| acc + x)]. *)
Definition mul_cell (a b : Matrix T) (i j : nat) : outcome T :=
  foldM (fun acc k => x <- index a i k;; y <- index b k j;; Ok (add acc (mul x y)))
        (seq 0 (cols a)) default.

(** [impl Mul for Matrix]; the store index [i * rhs.cols + j] is below
    [self.rows * rhs.cols], checked when the buffer is allocated. *)
Definition op_mul (a b : Matrix T) : outcome (Matrix T) :=
  if negb (cols a =? rows b) then Err "Cannot multiply matrices"%string
  else
    n <- mul_usize (rows a) (cols b);;
    new_data <- foldM (fun nd i =>
                  foldM (fun nd j => v <- mul_cell a b i j;; vec_store nd (i * cols b + j) v)
                        (seq 0 (cols b)) nd)
                (seq 0 (rows a)) (repeat default n);;
    Ok (mkMatrix (rows a) (cols b) new_data).

Definition scalar_multiply (m : Matrix T) (scalar : T) : Matrix T :=
  mkMatrix (rows m) (cols m) (map (fun x => mul x scalar) (data m)).

Definition hadamard_product (a b : Matrix T) : outcome (Matrix T) :=
  if negb (rows a =? rows b) || negb (cols a =? cols b)
  then Err "Matrices must have the same dimensions for Hadamard product"%string
  else Ok (mkMatrix (rows a) (cols a)
             (map (fun p => mul (fst p) (snd p)) (combine (data a) (data b)))).

(** The minor built inside [determinant] for column [j] of an [n x n]
    matrix with data [d]: [for i in 1..n { for k in 0..n { if k != j {
    submatrix.push(self[(i, k)]) } } }]. *)
Definition minor_data (n : nat) (d : list T) (j : nat) : outcome (list T) :=
  foldM (fun sm i =>
           foldM (fun sm k =>
                    if k =? j then Ok sm
                    else x <- vec_index d (i * n + k);; Ok (sm ++ [x]))
                 (seq 0 n) sm)
        (seq 1 (n - 1)) [].

(** [determinant] on a matrix already known to be square, of size [n]
    and data [d].  The recursive call
    [Matrix { rows: n - 1, cols: n - 1, data: submatrix }.determinant()]
    passes the squareness test, so it is [det_sq (n - 1) submatrix]. *)
Fixpoint det_sq (n : nat) (d : list T) {struct n} : outcome T :=
  match n with
  | 0 => Ok default (* [for j in 0..0] does not run: [det] stays [T::default()] *)
  | 1 => vec_index d (0 * 1 + 0)
  | 2 =>
      a <- vec_index d (0 * 2 + 0);; b <- vec_index d (1 * 2 + 1);;
      c <- vec_index d (0 * 2 + 1);; e <- vec_index d (1 * 2 + 0);;
      Ok (sub (mul a b) (mul c e))
  | S n' =>
      foldM (fun det j =>
               sm <- minor_data n d j;;
               subdet <- det_sq n' sm;;
               x <- vec_index d (0 * n + j);;
               Ok (if Nat.even j then add det (mul x subdet)
                   else sub det (mul x subdet)))
            (seq 0 n) default
  end.

Definition determinant (m : Matrix T) : outcome T :=
  if negb (rows m =? cols m)
  then Err "Matrix must be square to computer determinant"%string
  else det_sq (rows m) (data m).

(** [Matrix::get] *)
Definition get (m : Matrix T) (row col : nat) : outcome (option T) :=
  if (rows m <=? row) || (cols m <=? col) then Ok None
  else x <- index m row col;; Ok (Some x).

(** [Matrix::column] *)
Definition column (m : Matrix T) (i : nat) : outcome (option (Vector.Vector T)) :=
  if cols m <=? i then Ok None
  else column_data <- mapM (fun row => index m row i) (seq 0 (rows m));;
       Ok (Some (Vector.mkVector column_data)).

(** [Matrix::dot] *)
Definition dot (a b : Matrix T) : outcome T :=
  if negb (rows a =? rows b) || negb (cols a =? cols b)
  then Err "Matrices must have the same dimensions for dot product"%string
  else Ok (fold_left (fun acc x => add acc x)
             (List.map (fun p => mul (fst p) (snd p)) (combine (data a) (data b))) default).

(** [Matrix::trace] *)
Definition trace (m : Matrix T) : outcome T :=
  if negb (rows m =? cols m)
  then Err "Matrix must be square to compute trace"%string
  else foldM (fun acc i => x <- index m i i;; Ok (add acc x)) (seq 0 (rows m)) default.

End Matrix.
End Matrix.

(** ** [i32]-like element type used for concrete runs: [Z] *)

#[export] Instance Default_Z : Default Z := 0%Z.
#[export] Instance FromI32_Z : FromI32 Z := fun z => z.
#[export] Instance TAdd_Z : TAdd Z := Z.add.
#[export] Instance TSub_Z : TSub Z := Z.sub.
#[export] Instance TMul_Z : TMul Z := Z.mul.
#[export] Instance TDiv_Z : TDiv Z := Z.quot.
#[export] Instance PartialOrd_Z : PartialOrd Z := fun a b => Some (Z.compare a b).

(** ** Reading of the spec's sentences, on matrices seen as functions *)

Module Spec.
Section Spec.
Context {T : Type} `{Default T} `{TAdd T} `{TSub T} `{TMul T}.

(** Entry [(i, j)] of a row-major matrix. *)
Definition entry (m : Matrix.Matrix T) (i j : nat) : T :=
  nth (i * Matrix.cols m + j) (Matrix.data m) default.

(** The column of the original matrix that column [k] of the minor
    without column [j] comes from. *)
Definition skip (j k : nat) : nat := if k <? j then k else S k.

(** The minor obtained by deleting row 0 and column [j]. *)
Definition minor (f : nat -> nat -> T) (j : nat) : nat -> nat -> T :=
  fun i k => f (S i) (skip j k).

(** The determinant as the spec describes it for an [n x n] matrix [f]:
    the entry for [n = 1], [ad - bc] for [n = 2], and for [n >= 3] the
    Laplace expansion along row 0, accumulated from zero with the sign
    alternating from [+] at [j = 0]. *)
Fixpoint laplace_det (n : nat) (f : nat -> nat -> T) : T :=
  match n with
  | 0 => default
  | 1 => f 0 0
  | 2 => sub (mul (f 0 0) (f 1 1)) (mul (f 0 1) (f 1 0))
  | S n' =>
      fold_left (fun acc j =>
                   if Nat.even j then add acc (mul (f 0 j) (laplace_det n' (minor f j)))
                   else sub acc (mul (f 0 j) (laplace_det n' (minor f j))))
                (seq 0 n) default
  end.

(** Proof device: the rows of the minor without column [j], as the loop builds them. *)
Definition minor_rows (n : nat) (d : list T) (j : nat) : list (list T) :=
  map (fun i => map (fun k => nth (i * n + skip j k) d default) (seq 0 (n - 1)))
      (seq 1 (n - 1)).

(** Entry [(i, j)] of the standard matrix product, as a sum over [k]
    accumulated with [+] from [T::default()]. *)
Definition product_entry (a b : Matrix.Matrix T) (i j : nat) : T :=
  fold_left (fun acc k => add acc (mul (entry a i k) (entry b k j))) (seq 0 (Matrix.cols a)) default.

(** [l'] is [l] with exactly the element at [i] replaced by [x]. *)
Definition replaced {A} (l : list A) (i : nat) (x : A) (l' : list A) : Prop :=
  length l' = length l /\ nth_error l' i = Some x /\
  (forall k, k <> i -> nth_error l' k = nth_error l k).

(** The effect of [self op= rhs] on [self]'s data [a]: elements paired
    with an element of [rhs] are combined, the length and every element
    from index [rhs.len()] on are kept. *)
Definition assign_effect {A} (op : A -> A -> A) (a b r : list A) : Prop :=
  length r = length a /\
  (forall i x y, nth_error a i = Some x -> nth_error b i = Some y ->
                 nth_error r i = Some (op x y)) /\
  (forall i, length b <= i -> nth_error r i = nth_error a i).

End Spec.
End Spec.

(** * Proofs *)

(** ** Generic facts about the effect model and lists *)

Section Facts.
Context {T : Type}.

Lemma foldM_ok {A B} (f : A -> B -> outcome A) (g : A -> B -> A) (l : list B) (a : A) :
  (forall a x, In x l -> f a x = Ok (g a x)) ->
  foldM f l a = Ok (fold_left g l a).
Proof.
  revert a; induction l as [|x l IH]; intros a Hf; simpl; [reflexivity|].
  rewrite (Hf a x (or_introl eq_refl)); simpl.
  apply IH; intros; apply Hf; right; assumption.
Qed.

Lemma foldM_app {A B} (f : A -> B -> outcome A) (l1 l2 : list B) (a : A) :
  foldM f (l1 ++ l2) a = bind (foldM f l1 a) (foldM f l2).
Proof.
  revert a; induction l1 as [|x l1 IH]; intros a; simpl; [reflexivity|].
  destruct (f a x); simpl; auto.
Qed.

Lemma mul_usize_ok (a b : nat) : fits_usize (a * b) -> mul_usize a b = Ok (a * b).
Proof. unfold fits_usize, mul_usize; intros E; rewrite E; reflexivity. Qed.

Lemma mul_usize_panic (a b : nat) : ~ fits_usize (a * b) -> mul_usize a b = Panic.
Proof.
  unfold fits_usize, mul_usize; intros E; destruct (fits_usizeb (a * b)); [|reflexivity].
  exfalso; apply E; reflexivity.
Qed.

Lemma mul_usize_cases (a b : nat) :
  (fits_usize (a * b) /\ mul_usize a b = Ok (a * b)) \/
  (~ fits_usize (a * b) /\ mul_usize a b = Panic).
Proof.
  destruct (fits_usizeb (a * b)) eqn:F.
  - left; split; [exact F|apply mul_usize_ok; exact F].
  - right; assert (Hn : ~ fits_usize (a * b)) by (unfold fits_usize; congruence).
    split; [exact Hn|apply mul_usize_panic; exact Hn].
Qed.

Lemma vec_index_nth (v : list T) (i : nat) (d : T) :
  i < length v -> vec_index v i = Ok (nth i v d).
Proof.
  intros Hi; unfold vec_index.
  rewrite (nth_error_nth' v d Hi); reflexivity.
Qed.

Lemma fold_left_app_concat {A} (g : A -> list T) (l : list A) (acc : list T) :
  fold_left (fun sm x => sm ++ g x) l acc = acc ++ concat (map g l).
Proof.
  revert acc; induction l as [|x l IH]; intros acc; simpl.
  - rewrite app_nil_r; reflexivity.
  - rewrite IH, app_assoc; reflexivity.
Qed.

Lemma fold_left_push_filter (h : nat -> T) (j : nat) (l : list nat) (acc : list T) :
  fold_left (fun sm k => if k =? j then sm else sm ++ [h k]) l acc
  = acc ++ map h (filter (fun k => negb (k =? j)) l).
Proof.
  revert acc; induction l as [|k l IH]; intros acc; simpl.
  - rewrite app_nil_r; reflexivity.
  - destruct (k =? j); simpl; rewrite IH; [reflexivity|].
    rewrite <- app_assoc; reflexivity.
Qed.

Lemma nth_concat_blocks (w : nat) (ls : list (list T)) (i k : nat) (x : T) :
  Forall (fun b => length b = w) ls -> k < w ->
  nth (i * w + k) (concat ls) x = nth k (nth i ls []) x.
Proof.
  intros Hall Hk; revert i; induction Hall as [|b ls Hb Hall IH]; intros i.
  - assert (E : forall (U : Type) n (y : U), nth n [] y = y) by (intros ? []; reflexivity).
    simpl concat; rewrite !E; reflexivity.
  - destruct i as [|i]; simpl.
    + apply app_nth1; lia.
    + rewrite app_nth2 by lia.
      replace (w + i * w + k - length b) with (i * w + k) by lia.
      apply IH.
Qed.

Lemma nth_map_seq {A} (f : nat -> A) (s len i : nat) (x : A) :
  i < len -> nth i (map f (seq s len)) x = f (s + i).
Proof.
  intros Hi.
  rewrite (nth_indep _ x (f s)) by (rewrite length_map, length_seq; assumption).
  rewrite map_nth, seq_nth by assumption; reflexivity.
Qed.

Lemma foldM_ext_in {A B} (f g : A -> B -> outcome A) (l : list B) (a : A) :
  (forall a x, In x l -> f a x = g a x) -> foldM f l a = foldM g l a.
Proof.
  revert a; induction l as [|x l IH]; intros a Hfg; simpl; [reflexivity|].
  rewrite (Hfg a x (or_introl eq_refl)); destruct (g a x); simpl; try reflexivity.
  apply IH; intros; apply Hfg; right; assumption.
Qed.

Lemma foldM_map {A B C} (f : A -> C -> outcome A) (h : B -> C) (l : list B) (a : A) :
  foldM f (map h l) a = foldM (fun a x => f a (h x)) l a.
Proof.
  revert a; induction l as [|x l IH]; intros a; simpl; [reflexivity|].
  destruct (f a (h x)); simpl; auto.
Qed.

(** Two nested [for] loops are one loop over the pairs of indices. *)
Lemma foldM_nested {A B C} (F : B -> C -> A -> outcome A) (l1 : list B) (l2 : list C) (a : A) :
  foldM (fun a x => foldM (fun a y => F x y a) l2 a) l1 a
  = foldM (fun a p => F (fst p) (snd p) a) (list_prod l1 l2) a.
Proof.
  revert a; induction l1 as [|x l1 IH]; intros a; simpl; [reflexivity|].
  rewrite foldM_app, foldM_map; simpl.
  destruct (foldM (fun a y => F x y a) l2 a); simpl; auto.
Qed.

(** A loop whose body keeps a property of the accumulator keeps it. *)
Lemma foldM_invariant {A B} (P : A -> Prop) (f : A -> B -> outcome A) (l : list B) (a a' : A) :
  (forall a x a', P a -> f a x = Ok a' -> P a') ->
  P a -> foldM f l a = Ok a' -> P a'.
Proof.
  intros Hf; revert a; induction l as [|x l IH]; intros a Ha Hl; simpl in Hl.
  - injection Hl as <-; assumption.
  - destruct (f a x) as [a1| |] eqn:E; simpl in Hl; try discriminate.
    apply (IH a1); [apply (Hf a x); assumption | assumption].
Qed.

Lemma mapM_ok {A B} (f : A -> outcome B) (g : A -> B) (l : list A) :
  (forall x, In x l -> f x = Ok (g x)) -> mapM f l = Ok (map g l).
Proof.
  induction l as [|x l IH]; intros Hf; simpl; [reflexivity|].
  rewrite (Hf x (or_introl eq_refl)); simpl.
  rewrite IH by (intros; apply Hf; right; assumption); reflexivity.
Qed.

Lemma fold_left_push (h : nat -> T) (l : list nat) (acc : list T) :
  fold_left (fun td x => td ++ [h x]) l acc = acc ++ map h l.
Proof.
  revert acc; induction l as [|x l IH]; intros acc; simpl.
  - rewrite app_nil_r; reflexivity.
  - rewrite IH, <- app_assoc; reflexivity.
Qed.

Lemma length_vec_store (l l' : list T) (i : nat) (x : T) :
  vec_store l i x = Ok l' -> length l' = length l.
Proof.
  unfold vec_store; destruct (i <? length l); intros E; [|discriminate].
  injection E as <-; clear.
  revert i; induction l as [|y l IH]; intros [|i]; simpl; try rewrite IH; reflexivity.
Qed.

Lemma nth_replace_nth_same (l : list T) (i : nat) (x d : T) :
  i < length l -> nth i (replace_nth l i x) d = x.
Proof.
  revert i; induction l as [|y l IH]; intros [|i] Hi; simpl in *; try lia; auto.
  apply IH; lia.
Qed.

Lemma nth_replace_nth_other (l : list T) (i k : nat) (x d : T) :
  k <> i -> nth k (replace_nth l i x) d = nth k l d.
Proof.
  revert i k; induction l as [|y l IH]; intros [|i] [|k] Hki; simpl; auto; try lia.
Qed.

(** A loop storing [val p] at position [pos p] for every [p] of [P],
    all in range, with no two stores at one position disagreeing. *)
Lemma foldM_store {B} (d : T) (pos : B -> nat) (val : B -> T) (P : list B) (l : list T) :
  (forall p, In p P -> pos p < length l) ->
  (forall p p', In p P -> In p' P -> pos p = pos p' -> val p = val p') ->
  exists l', foldM (fun nd p => vec_store nd (pos p) (val p)) P l = Ok l' /\
    length l' = length l /\
    (forall p, In p P -> nth (pos p) l' d = val p) /\
    (forall q, (forall p, In p P -> q <> pos p) -> nth q l' d = nth q l d).
Proof.
  revert l; induction P as [|p P IH]; intros l Hin Hval.
  - exists l; split; [reflexivity|split; [reflexivity|split]].
    + intros p [].
    + reflexivity.
  - assert (Hp : pos p < length l) by (apply Hin; left; reflexivity).
    simpl; unfold vec_store at 1; destruct (Nat.ltb_spec (pos p) (length l)); [|lia].
    simpl.
    assert (Hl1 : length (replace_nth l (pos p) (val p)) = length l).
    { apply (length_vec_store l _ (pos p) (val p)); unfold vec_store.
      destruct (Nat.ltb_spec (pos p) (length l)); [reflexivity|lia]. }
    destruct (IH (replace_nth l (pos p) (val p))) as [l' [E [Hlen [Hset Hkeep]]]].
    + intros p' Hp'; rewrite Hl1; apply Hin; right; assumption.
    + intros p1 p2 H1 H2; apply Hval; right; assumption.
    + exists l'; split; [assumption|split; [congruence|split]].
      * intros p0 [<-|H0]; [|apply Hset; assumption].
        destruct (existsb (fun p' => pos p' =? pos p) P) eqn:Ex.
        -- apply existsb_exists in Ex; destruct Ex as [p' [Hp' Eq]].
           apply Nat.eqb_eq in Eq.
           rewrite <- Eq, Hset by assumption.
           apply Hval; [right; assumption|left; reflexivity|assumption].
        -- rewrite Hkeep.
           ++ apply nth_replace_nth_same; assumption.
           ++ intros p' Hp' Eq.
              assert (existsb (fun p' => pos p' =? pos p) P = true) as Ex'.
              { apply existsb_exists; exists p'; split; [assumption|].
                apply Nat.eqb_eq; congruence. }
              congruence.
      * intros q Hq; rewrite Hkeep.
        -- apply nth_replace_nth_other; apply Hq; left; reflexivity.
        -- intros p' Hp'; apply Hq; right; assumption.
Qed.

End Facts.

(** ** The determinant: the code's cofactor expansion against [laplace_det] *)

Section Determinant.
Context {T : Type} `{Default T} `{TAdd T} `{TSub T} `{TMul T}.
Import Matrix Spec.

Lemma fold_left_ext_in {A B} (f g : A -> B -> A) (l : list B) (a : A) :
  (forall a x, In x l -> f a x = g a x) -> fold_left f l a = fold_left g l a.
Proof.
  revert a; induction l as [|x l IH]; intros a Hfg; simpl; [reflexivity|].
  rewrite (Hfg a x (or_introl eq_refl)); apply IH; intros; apply Hfg; right; assumption.
Qed.

Lemma filter_all {A} (p : A -> bool) (l : list A) :
  (forall x, In x l -> p x = true) -> filter p l = l.
Proof.
  induction l as [|x l IH]; intros Hp; simpl; [reflexivity|].
  rewrite (Hp x (or_introl eq_refl)), IH; [reflexivity|].
  intros; apply Hp; right; assumption.
Qed.

Lemma filter_seq_skip (n j : nat) :
  j < n -> filter (fun k => negb (k =? j)) (seq 0 n) = map (skip j) (seq 0 (n - 1)).
Proof.
  intros Hj.
  replace n with (j + S (n - S j)) at 1 by lia.
  replace (n - 1) with (j + (n - S j)) by lia.
  rewrite !seq_app, filter_app, map_app; simpl.
  rewrite Nat.eqb_refl; simpl.
  f_equal.
  - rewrite filter_all.
    + symmetry; rewrite <- map_id; apply map_ext_in.
      intros k Hk; apply in_seq in Hk; unfold skip.
      destruct (Nat.ltb_spec k j); lia.
    + intros k Hk; apply in_seq in Hk.
      destruct (Nat.eqb_spec k j); [lia | reflexivity].
  - rewrite filter_all.
    + rewrite <- seq_shift; apply map_ext_in.
      intros k Hk; apply in_seq in Hk; unfold skip.
      destruct (Nat.ltb_spec k j); lia.
    + intros k Hk; apply in_seq in Hk.
      destruct (Nat.eqb_spec k j); [lia | reflexivity].
Qed.

Lemma length_concat_blocks (w : nat) (ls : list (list T)) :
  Forall (fun b => length b = w) ls -> length (concat ls) = length ls * w.
Proof.
  induction 1 as [|b ls Hb _ IH]; simpl; [reflexivity|].
  rewrite length_app, IH, Hb; reflexivity.
Qed.

Lemma minor_rows_blocks (n : nat) (d : list T) (j : nat) :
  Forall (fun b => length b = n - 1) (minor_rows n d j).
Proof.
  unfold minor_rows; apply Forall_forall; intros b Hb.
  apply in_map_iff in Hb; destruct Hb as [i [<- _]].
  rewrite length_map, length_seq; reflexivity.
Qed.

Lemma minor_data_ok (n : nat) (d : list T) (j : nat) :
  j < n -> length d = n * n ->
  minor_data n d j = Ok (concat (minor_rows n d j)).
Proof.
  intros Hj Hd; unfold minor_data.
  rewrite (foldM_ok _ (fun sm i => sm ++ map (fun k => nth (i * n + skip j k) d default)
                                               (seq 0 (n - 1)))).
  - rewrite fold_left_app_concat; reflexivity.
  - intros sm i Hi; apply in_seq in Hi.
    rewrite (foldM_ok _ (fun sm k => if k =? j then sm else sm ++ [nth (i * n + k) d default])).
    + rewrite fold_left_push_filter, filter_seq_skip, map_map by assumption; reflexivity.
    + intros sm' k Hk; apply in_seq in Hk.
      destruct (k =? j); [reflexivity|].
      rewrite (vec_index_nth _ _ default) by nia; reflexivity.
Qed.

Lemma minor_rows_nth (n : nat) (d : list T) (j i k : nat) :
  i < n - 1 -> k < n - 1 ->
  nth (i * (n - 1) + k) (concat (minor_rows n d j)) default
  = nth (S i * n + skip j k) d default.
Proof.
  intros Hi Hk.
  rewrite (nth_concat_blocks (n - 1)) by (apply minor_rows_blocks || assumption).
  unfold minor_rows.
  rewrite !nth_map_seq by assumption; reflexivity.
Qed.

Lemma laplace_det_ext (n : nat) (f g : nat -> nat -> T) :
  (forall i j, i < n -> j < n -> f i j = g i j) -> laplace_det n f = laplace_det n g.
Proof.
  revert f g; induction n as [|n IH]; intros f g Hfg; [reflexivity|].
  destruct n as [|[|n2]].
  - simpl; apply Hfg; lia.
  - simpl; rewrite !Hfg by lia; reflexivity.
  - change (laplace_det (S (S (S n2))) f) with
      (fold_left (fun acc j =>
                   if Nat.even j then add acc (mul (f 0 j) (laplace_det (S (S n2)) (minor f j)))
                   else sub acc (mul (f 0 j) (laplace_det (S (S n2)) (minor f j))))
                (seq 0 (S (S (S n2)))) default).
    change (laplace_det (S (S (S n2))) g) with
      (fold_left (fun acc j =>
                   if Nat.even j then add acc (mul (g 0 j) (laplace_det (S (S n2)) (minor g j)))
                   else sub acc (mul (g 0 j) (laplace_det (S (S n2)) (minor g j))))
                (seq 0 (S (S (S n2)))) default).
    apply fold_left_ext_in; intros acc j Hj; apply in_seq in Hj.
    rewrite (Hfg 0 j) by lia.
    rewrite (IH (minor f j) (minor g j)); [reflexivity|].
    intros i k Hi Hk; unfold minor, skip; apply Hfg; [lia|].
    destruct (Nat.ltb_spec k j); lia.
Qed.

Lemma det_sq_correct (n : nat) (d : list T) :
  length d = n * n ->
  det_sq n d = Ok (laplace_det n (fun i j => nth (i * n + j) d default)).
Proof.
  revert d; induction n as [|n IH]; intros d Hd; [reflexivity|].
  destruct n as [|[|n2]].
  - destruct d as [|a [|]]; try discriminate; reflexivity.
  - destruct d as [|a [|b [|c [|e [|]]]]]; try discriminate; reflexivity.
  - set (N := S (S (S n2))).
    change (det_sq N d) with
      (foldM (fun det j =>
               sm <- minor_data N d j;;
               subdet <- det_sq (S (S n2)) sm;;
               x <- vec_index d (0 * N + j);;
               Ok (if Nat.even j then add det (mul x subdet)
                   else sub det (mul x subdet)))
            (seq 0 N) default).
    change (laplace_det N (fun i j => nth (i * N + j) d default)) with
      (fold_left (fun acc j =>
                   if Nat.even j
                   then add acc (mul (nth (0 * N + j) d default)
                          (laplace_det (S (S n2)) (minor (fun i j => nth (i * N + j) d default) j)))
                   else sub acc (mul (nth (0 * N + j) d default)
                          (laplace_det (S (S n2)) (minor (fun i j => nth (i * N + j) d default) j))))
                (seq 0 N) default).
    apply foldM_ok; intros det j Hj; apply in_seq in Hj.
    rewrite minor_data_ok by (subst N; lia); cbn [bind].
    rewrite IH.
    2:{ rewrite (length_concat_blocks (N - 1)) by apply minor_rows_blocks.
        unfold minor_rows; rewrite length_map, length_seq; subst N; simpl; lia. }
    cbn [bind].
    rewrite (vec_index_nth _ _ default) by (subst N; nia); cbn [bind].
    rewrite (laplace_det_ext _ _ (minor (fun i j => nth (i * N + j) d default) j)).
    + reflexivity.
    + intros i k Hi Hk; unfold minor.
      replace (S (S n2)) with (N - 1) by (subst N; lia).
      apply minor_rows_nth; subst N; lia.
Qed.

(** C1: [determinant()] fails with an error on every non-square matrix;
    on every [n x n] matrix with [n >= 1] (data of length [n * n]) it
    succeeds with [laplace_det n]: the single entry for [n = 1], [ad - bc]
    for [n = 2], and for [n >= 3] the Laplace expansion along row 0 with
    the sign alternating from [+] at [j = 0]. *)
Theorem determinant_laplace (m : Matrix T) :
  (rows m <> cols m -> exists e, determinant m = Err e) /\
  (wf m -> rows m = cols m -> 1 <= rows m ->
   determinant m = Ok (laplace_det (rows m) (entry m))).
Proof.
  split.
  - intros Hrc; unfold determinant.
    destruct (Nat.eqb_spec (rows m) (cols m)) as [E|_]; [contradiction|].
    eexists; reflexivity.
  - intros Hwf Hrc _; unfold determinant, wf, entry in *.
    rewrite Hrc, Nat.eqb_refl; simpl negb; cbv iota.
    rewrite <- Hrc in Hwf |- *.
    apply det_sq_correct; assumption.
Qed.

(** C9: the [0 x 0] matrix with empty data has determinant
    [T::default()], the empty Laplace sum, and no error is raised. *)
Theorem determinant_empty : determinant (mkMatrix 0 0 ([] : list T)) = Ok default.
Proof. reflexivity. Qed.

End Determinant.

(** ** [Vector] *)

Section VectorProofs.
Context {T : Type}.
Import Vector Spec.

Lemma replace_nth_replaced (l : list T) (i : nat) (x : T) :
  i < length l -> replaced l i x (replace_nth l i x).
Proof.
  revert i; induction l as [|y l IH]; intros i Hi; simpl in Hi; [lia|].
  destruct i as [|i]; simpl.
  - split; [reflexivity|split; [reflexivity|]].
    intros [|k] Hk; [contradiction|reflexivity].
  - destruct (IH i) as [Hl [Hx Ho]]; [lia|].
    split; [simpl; rewrite Hl; reflexivity|split; [assumption|]].
    intros [|k] Hk; [reflexivity|]; simpl; apply Ho; lia.
Qed.

Lemma vec_store_ok (l : list T) (i : nat) (x : T) :
  i < length l -> vec_store l i x = Ok (replace_nth l i x).
Proof.
  intros Hi; unfold vec_store; destruct (Nat.ltb_spec i (length l)); [reflexivity|lia].
Qed.

Lemma length_replace_nth (l : list T) (i : nat) (x : T) :
  length (replace_nth l i x) = length l.
Proof.
  revert i; induction l as [|y l IH]; intros [|i]; simpl; try rewrite IH; reflexivity.
Qed.

Lemma vector_set_in (v : Vector T) (i : nat) (x : T) :
  i < len v -> set v i x = (Ok tt, mkVector (replace_nth (data v) i x)).
Proof.
  intros Hi; unfold set; destruct (Nat.leb_spec (len v) i); [lia|].
  rewrite vec_store_ok by assumption; reflexivity.
Qed.

Lemma zip_assign_effect (op : T -> T -> T) (a b : list T) :
  assign_effect op a b (zip_assign op a b).
Proof.
  revert b; induction a as [|x a IH]; intros [|y b];
    unfold assign_effect; simpl.
  - split; [reflexivity|split; [intros [|i]; discriminate|reflexivity]].
  - split; [reflexivity|split; [intros [|i]; discriminate|reflexivity]].
  - split; [reflexivity|split; [intros i ? ? _ Hy; destruct i; discriminate|reflexivity]].
  - destruct (IH b) as [Hl [Hc Hf]].
    split; [simpl; rewrite Hl; reflexivity|split].
    + intros [|i] x' y' Hx Hy; simpl in *.
      * congruence.
      * apply Hc; assumption.
    + intros [|i] Hi; simpl in *; [lia|apply Hf; lia].
Qed.

Lemma zip_assign_nil (op : T -> T -> T) (a : list T) : zip_assign op a [] = a.
Proof. destruct a; reflexivity. Qed.

Lemma nth_error_zip {U} (f : T -> T -> U) (a b : list T) (i : nat) :
  i < Nat.min (length a) (length b) ->
  exists x y, nth_error a i = Some x /\ nth_error b i = Some y /\
    nth_error (List.map (fun p => f (fst p) (snd p)) (combine a b)) i = Some (f x y).
Proof.
  revert b i; induction a as [|x a IH]; intros [|y b] i Hi; simpl in Hi; try lia.
  destruct i as [|i]; simpl.
  - exists x, y; repeat split.
  - apply IH; lia.
Qed.

(** C6: [a.zip_map(b, f)] has length [min(a.len(), b.len())], its element
    [i] is [f(a[i], b[i])] for every [i] below that length, and it is a
    plain vector (no error path): the longer vector's tail is dropped. *)
Theorem zip_map_min {U} (a b : Vector T) (f : T -> T -> U) :
  len (zip_map a b f) = Nat.min (len a) (len b) /\
  (forall i, i < Nat.min (len a) (len b) ->
     exists x y, nth_error (data a) i = Some x /\ nth_error (data b) i = Some y /\
       nth_error (data (zip_map a b f)) i = Some (f x y)).
Proof.
  unfold len, zip_map; simpl; split.
  - rewrite length_map, length_combine; reflexivity.
  - intros i Hi; apply nth_error_zip; assumption.
Qed.

(** C10: [a += b], [a -= b], [a *= b] and [a /= b] combine the elements of
    [a] that have a partner in [b], keep [a]'s length and every element of
    [a] from index [b.len()] on; with [b] empty, [a] is unchanged. *)
Theorem vector_assign_frame `{TAdd T} `{TSub T} `{TMul T} `{TDiv T} (a b : Vector T) :
  assign_effect add (data a) (data b) (data (add_assign a b)) /\
  assign_effect sub (data a) (data b) (data (sub_assign a b)) /\
  assign_effect mul (data a) (data b) (data (mul_assign a b)) /\
  assign_effect div (data a) (data b) (data (div_assign a b)) /\
  (data b = [] ->
   add_assign a b = a /\ sub_assign a b = a /\ mul_assign a b = a /\ div_assign a b = a).
Proof.
  unfold add_assign, sub_assign, mul_assign, div_assign; simpl.
  split; [apply zip_assign_effect|].
  split; [apply zip_assign_effect|].
  split; [apply zip_assign_effect|].
  split; [apply zip_assign_effect|].
  intros Hb; rewrite Hb, !zip_assign_nil; destruct a; repeat split.
Qed.

End VectorProofs.

(** ** [Matrix] *)

Section MatrixProofs.
Context {T : Type} `{Default T} `{FromI32 T} `{TAdd T} `{TSub T} `{TMul T}.
Import Matrix Spec.

Lemma pos_inj (C i j i' j' : nat) :
  j < C -> j' < C -> i * C + j = i' * C + j' -> i = i' /\ j = j'.
Proof.
  intros Hj Hj' E.
  destruct (lt_eq_lt_dec i i') as [[Hlt|<-]|Hgt]; [nia| lia | nia].
Qed.

Lemma index_ok (m : Matrix T) (i j : nat) :
  wf m -> i < rows m -> j < cols m -> index m i j = Ok (entry m i j).
Proof.
  intros Hwf Hi Hj; unfold index, entry, wf in *.
  apply vec_index_nth; nia.
Qed.

Lemma matrix_ext (m1 m2 : Matrix T) :
  wf m1 -> wf m2 -> rows m1 = rows m2 -> cols m1 = cols m2 ->
  (forall i j, i < rows m1 -> j < cols m1 -> entry m1 i j = entry m2 i j) -> m1 = m2.
Proof.
  destruct m1 as [r c d1], m2 as [r' c' d2]; unfold wf, entry; simpl.
  intros Hw1 Hw2 <- <- He; f_equal.
  apply (nth_ext _ _ default default); [congruence|].
  intros q Hq; rewrite Hw1 in Hq.
  assert (Hc : 0 < c) by (destruct c; lia).
  pose proof (Nat.div_mod_eq q c) as Eq.
  pose proof (Nat.mod_upper_bound q c ltac:(lia)) as Hm.
  assert (Hd : q / c < r) by (apply Nat.Div0.div_lt_upper_bound; lia).
  specialize (He (q / c) (q mod c) Hd Hm).
  replace (q / c * c + q mod c) with q in He by lia; exact He.
Qed.

Lemma mul_cell_ok (a b : Matrix T) (i j : nat) :
  wf a -> wf b -> cols a = rows b -> i < rows a -> j < cols b ->
  mul_cell a b i j = Ok (product_entry a b i j).
Proof.
  intros Ha Hb Hab Hi Hj; unfold mul_cell, product_entry.
  apply foldM_ok; intros acc k Hk; apply in_seq in Hk.
  rewrite index_ok by (assumption || lia); cbn [bind].
  rewrite index_ok by (assumption || lia); reflexivity.
Qed.

Lemma op_mul_ok (a b : Matrix T) :
  wf a -> wf b -> cols a = rows b -> fits_usize (rows a * cols b) ->
  exists c, op_mul a b = Ok c /\ rows c = rows a /\ cols c = cols b /\ wf c /\
    (forall i j, i < rows a -> j < cols b -> entry c i j = product_entry a b i j).
Proof.
  intros Ha Hb Hab Hfit; unfold op_mul.
  rewrite Hab, Nat.eqb_refl; simpl negb; cbv iota.
  rewrite mul_usize_ok by assumption; cbn [bind].
  rewrite foldM_nested.
  rewrite (foldM_ext_in _ (fun nd p => vec_store nd (fst p * cols b + snd p)
                                      (product_entry a b (fst p) (snd p)))).
  2:{ intros nd [i j] Hp; apply in_prod_iff in Hp; destruct Hp as [Hi Hj].
      apply in_seq in Hi; apply in_seq in Hj; simpl.
      rewrite mul_cell_ok by (assumption || lia); reflexivity. }
  destruct (foldM_store default (fun p => fst p * cols b + snd p)
              (fun p => product_entry a b (fst p) (snd p))
              (list_prod (seq 0 (rows a)) (seq 0 (cols b)))
              (repeat default (rows a * cols b)))
    as [l' [E [Hlen [Hset _]]]].
  - intros [i j] Hp; apply in_prod_iff in Hp; destruct Hp as [Hi Hj].
    apply in_seq in Hi; apply in_seq in Hj; rewrite repeat_length; simpl; nia.
  - intros [i j] [i' j'] Hp Hp' Eq.
    apply in_prod_iff in Hp; apply in_prod_iff in Hp'.
    destruct Hp as [_ Hj], Hp' as [_ Hj']; apply in_seq in Hj; apply in_seq in Hj'.
    simpl in *; destruct (pos_inj (cols b) i j i' j') as [-> ->]; (lia || reflexivity).
  - rewrite E; cbn [bind].
    eexists; split; [reflexivity|split; [reflexivity|split; [reflexivity|split]]].
    + unfold wf; simpl; rewrite Hlen, repeat_length; reflexivity.
    + intros i j Hi Hj; unfold entry; simpl.
      apply (Hset (i, j)); apply in_prod_iff; split; apply in_seq; lia.
Qed.

(** C3 (as amended): [A * B] fails with an error when
    [A.cols != B.rows]; otherwise it panics when the buffer size
    [A.rows * B.cols] overflows [usize], and when it does not, it
    succeeds with an [A.rows x B.cols] matrix whose entry [(i, j)] is the
    sum over [k] of [A(i, k) * B(k, j)] accumulated from [T::default()]. *)
Theorem mul_product (a b : Matrix T) :
  (cols a <> rows b -> exists e, op_mul a b = Err e) /\
  (cols a = rows b -> ~ fits_usize (rows a * cols b) -> op_mul a b = Panic) /\
  (wf a -> wf b -> cols a = rows b -> fits_usize (rows a * cols b) ->
   exists c, op_mul a b = Ok c /\ rows c = rows a /\ cols c = cols b /\ wf c /\
     (forall i j, i < rows a -> j < cols b -> entry c i j = product_entry a b i j)).
Proof.
  split; [|split].
  - intros Hab; unfold op_mul.
    destruct (Nat.eqb_spec (cols a) (rows b)); [contradiction|].
    eexists; reflexivity.
  - intros Hab Hfit; unfold op_mul.
    rewrite Hab, Nat.eqb_refl; cbn [negb].
    rewrite mul_usize_panic by assumption; reflexivity.
  - apply op_mul_ok.
Qed.

Lemma foldM_index_store_diag (l : list nat) (R C : nat) (d : list T) (x : T) :
  foldM (fun matrix i => index_store matrix i i x) l (mkMatrix R C d)
  = bind (foldM (fun d i => vec_store d (i * C + i) x) l d) (fun d' => Ok (mkMatrix R C d')).
Proof.
  revert d; induction l as [|i l IH]; intros d; simpl; [reflexivity|].
  unfold index_store; simpl.
  destruct (vec_store d (i * C + i) x); simpl; auto.
Qed.

Lemma identity_ok (n : nat) :
  fits_usize (n * n) ->
  exists I, identity n = Ok I /\ rows I = n /\ cols I = n /\ wf I /\
    (forall i j, i < n -> j < n -> entry I i j = if i =? j then from_i32 1%Z else default).
Proof.
  intros Hfit; unfold identity, zeroes.
  rewrite mul_usize_ok by assumption; cbn [bind].
  rewrite foldM_index_store_diag.
  destruct (foldM_store default (fun i => i * n + i) (fun _ => from_i32 1%Z)
              (seq 0 n) (repeat default (n * n)))
    as [l' [E [Hlen [Hset Hkeep]]]].
  - intros i Hi; apply in_seq in Hi; rewrite repeat_length; nia.
  - reflexivity.
  - cbv beta in E; rewrite E; cbn [bind].
    eexists; split; [reflexivity|split; [reflexivity|split; [reflexivity|split]]].
    + unfold wf; simpl; rewrite Hlen, repeat_length; reflexivity.
    + intros i j Hi Hj; unfold entry; simpl.
      destruct (Nat.eqb_spec i j) as [<-|Hij].
      * apply (Hset i); apply in_seq; lia.
      * rewrite Hkeep.
        -- apply nth_repeat.
        -- intros p Hp Eq; apply in_seq in Hp.
           destruct (pos_inj n i j p p) as [-> ->]; lia.
Qed.

Section UnitLaws.
(** The laws of [T::default()] and [T::from(1)] that make the identity
    matrix a right unit. *)
Hypothesis mul_default_r : forall x : T, mul x default = default.
Hypothesis mul_one_r : forall x : T, mul x (from_i32 1%Z) = x.
Hypothesis add_default_l : forall x : T, add default x = x.
Hypothesis add_default_r : forall x : T, add x default = x.

Lemma fold_delta_skip (x : nat -> T) (j : nat) (l : list nat) (acc : T) :
  (forall k, In k l -> k <> j) ->
  fold_left (fun acc k => add acc (mul (x k) (if k =? j then from_i32 1%Z else default))) l acc = acc.
Proof.
  revert acc; induction l as [|k l IH]; intros acc Hl; simpl; [reflexivity|].
  destruct (Nat.eqb_spec k j) as [E|_]; [exfalso; apply (Hl k); [left|]; auto|].
  rewrite mul_default_r, add_default_r; apply IH; intros; apply Hl; right; assumption.
Qed.

Lemma fold_delta (x : nat -> T) (n j : nat) :
  j < n ->
  fold_left (fun acc k => add acc (mul (x k) (if k =? j then from_i32 1%Z else default)))
            (seq 0 n) default = x j.
Proof.
  intros Hj.
  replace n with (j + S (n - S j)) by lia.
  rewrite seq_app, fold_left_app; simpl (seq (0 + j) _).
  rewrite (fold_delta_skip x j (seq 0 j)) by (intros k Hk; apply in_seq in Hk; lia).
  simpl; rewrite Nat.eqb_refl, mul_one_r, add_default_l.
  apply fold_delta_skip; intros k Hk; apply in_seq in Hk; lia.
Qed.

(** C8 (as amended): for every matrix [M] (over an element type where
    [T::default()] and [T::from(1)] are the zero and the one) whose
    [M.cols * M.cols] fits in [usize], [Identity(M.cols)] and
    [M * Identity(M.cols)] succeed and the product equals [M].  The data
    of [M] is a vector in memory, so its length fits in [usize]. *)
Theorem mul_identity_right (m : Matrix T) :
  wf m -> fits_usize (length (data m)) -> fits_usize (cols m * cols m) ->
  exists I, identity (cols m) = Ok I /\ op_mul m I = Ok m.
Proof.
  intros Hwf Hlen Hfit.
  destruct (identity_ok (cols m) Hfit) as [I [EI [HIr [HIc [HIwf HIe]]]]].
  exists I; split; [assumption|].
  destruct (op_mul_ok m I) as [c [Ec [Hcr [Hcc [Hcwf Hce]]]]];
    [assumption|assumption|congruence|rewrite HIc, <- Hwf; assumption|].
  rewrite Ec; f_equal.
  apply matrix_ext; [assumption|assumption|assumption|congruence|].
  intros i j Hi Hj; rewrite Hcr in Hi; rewrite Hcc, HIc in Hj.
  rewrite Hce by (rewrite ?HIc; assumption).
  unfold product_entry.
  rewrite (fold_left_ext_in _ (fun acc k => add acc (mul (entry m i k)
              (if k =? j then from_i32 1%Z else default)))).
  - apply fold_delta; assumption.
  - intros acc k Hk; apply in_seq in Hk; rewrite HIe by lia; reflexivity.
Qed.

End UnitLaws.

Lemma transpose_data (m : Matrix T) :
  wf m ->
  transpose m = Ok (mkMatrix (cols m) (rows m)
                      (concat (map (fun c => map (fun r => entry m r c) (seq 0 (rows m)))
                                   (seq 0 (cols m))))).
Proof.
  intros Hwf; unfold transpose.
  rewrite (foldM_ok _ (fun td col => td ++ map (fun r => entry m r col) (seq 0 (rows m)))).
  - rewrite fold_left_app_concat; reflexivity.
  - intros td col Hc; apply in_seq in Hc.
    rewrite (foldM_ok _ (fun td row => td ++ [entry m row col])).
    + rewrite fold_left_push; reflexivity.
    + intros td' row Hr; apply in_seq in Hr.
      rewrite index_ok by (assumption || lia); reflexivity.
Qed.

Lemma transpose_ok (m : Matrix T) :
  wf m ->
  exists t, transpose m = Ok t /\ rows t = cols m /\ cols t = rows m /\ wf t /\
    (forall i j, i < cols m -> j < rows m -> entry t i j = entry m j i).
Proof.
  intros Hwf; rewrite transpose_data by assumption.
  assert (Hb : Forall (fun b => length b = rows m)
                 (map (fun c => map (fun r => entry m r c) (seq 0 (rows m))) (seq 0 (cols m)))).
  { apply Forall_forall; intros b Hb; apply in_map_iff in Hb.
    destruct Hb as [c [<- _]]; rewrite length_map, length_seq; reflexivity. }
  eexists; split; [reflexivity|split; [reflexivity|split; [reflexivity|split]]].
  - unfold wf; simpl; rewrite (length_concat_blocks (rows m)) by assumption.
    rewrite length_map, length_seq; reflexivity.
  - intros i j Hi Hj; unfold entry at 1; simpl.
    rewrite (nth_concat_blocks (rows m)) by assumption.
    rewrite !nth_map_seq by assumption; reflexivity.
Qed.

(** C7: [transpose()] returns a [cols x rows] matrix with entry [(i, j)]
    equal to [M]'s entry [(j, i)], and transposing it again gives [M]. *)
Theorem transpose_involution (m : Matrix T) :
  wf m ->
  exists t, transpose m = Ok t /\ rows t = cols m /\ cols t = rows m /\
    (forall i j, i < cols m -> j < rows m -> entry t i j = entry m j i) /\
    transpose t = Ok m.
Proof.
  intros Hwf.
  destruct (transpose_ok m Hwf) as [t [Et [Htr [Htc [Htwf Hte]]]]].
  destruct (transpose_ok t Htwf) as [u [Eu [Hur [Huc [Huwf Hue]]]]].
  exists t; split; [assumption|split; [assumption|split; [assumption|split; [assumption|]]]].
  rewrite Eu; f_equal.
  apply matrix_ext; [assumption|assumption|congruence|congruence|].
  intros i j Hi Hj; rewrite Hur, Htc in Hi; rewrite Huc, Htr in Hj.
  rewrite Hue by congruence; apply Hte; assumption.
Qed.

Lemma row_ok (m : Matrix T) (i : nat) :
  wf m -> i < rows m ->
  row m i = Ok (Some (Vector.mkVector (firstn (cols m) (skipn (i * cols m) (data m))))).
Proof.
  intros Hwf Hi; unfold row, wf in *.
  destruct (Nat.leb_spec (rows m) i); [lia|].
  destruct (Nat.leb_spec (i * cols m + cols m) (length (data m))); [|nia].
  replace (i * cols m + cols m - i * cols m) with (cols m) by lia; reflexivity.
Qed.

Lemma concat_slices (r c : nat) (d : list T) :
  length d = r * c ->
  concat (map (fun i => firstn c (skipn (i * c) d)) (seq 0 r)) = d.
Proof.
  revert d; induction r as [|r IH]; intros d Hd; simpl.
  - destruct d; [reflexivity|discriminate].
  - rewrite <- seq_shift, map_map.
    rewrite (map_ext (fun x => firstn c (skipn (S x * c) d))
                     (fun x => firstn c (skipn (x * c) (skipn c d)))).
    + rewrite IH by (rewrite length_skipn; simpl in Hd; lia).
      apply firstn_skipn.
    + intros x; rewrite skipn_skipn; f_equal; f_equal; lia.
Qed.

(** C4 (as amended): for every matrix [M] with at least one row,
    [M.row(0), ..., M.row(M.rows - 1)] are all [Some], and
    [Matrix::from_rows] of them succeeds and rebuilds [M]. *)
Theorem rows_roundtrip (m : Matrix T) :
  wf m -> 1 <= rows m ->
  exists rs, mapM (row m) (seq 0 (rows m)) = Ok (map Some rs) /\ from_rows rs = Ok m.
Proof.
  intros Hwf Hr.
  exists (map (fun i => Vector.mkVector (firstn (cols m) (skipn (i * cols m) (data m))))
              (seq 0 (rows m))).
  split.
  - rewrite map_map; apply mapM_ok; intros i Hi; apply in_seq in Hi.
    apply row_ok; [assumption|lia].
  - assert (Hlen : forall i, i < rows m ->
              length (firstn (cols m) (skipn (i * cols m) (data m))) = cols m).
    { intros i Hi; rewrite length_firstn, length_skipn; unfold wf in Hwf; nia. }
    destruct m as [r c d]; simpl in *.
    destruct r as [|r]; [lia|].
    unfold from_rows; simpl map; cbv iota.
    pose proof (Hlen 0 ltac:(lia)) as Hl0; simpl in Hl0.
    rewrite (proj2 (forallb_forall _ _)).
    + simpl negb; cbv iota; f_equal; f_equal.
      * simpl; rewrite length_map, length_seq; reflexivity.
      * unfold Vector.len; simpl; assumption.
      * rewrite map_map; simpl Vector.data.
        change (firstn c d :: map (fun x => firstn c (skipn (x * c) d)) (seq 1 r))
          with (map (fun x => firstn c (skipn (x * c) d)) (seq 0 (S r))).
        apply concat_slices; assumption.
    + intros v Hv; destruct Hv as [<-|Hv].
      * apply Nat.eqb_refl.
      * apply in_map_iff in Hv; destruct Hv as [i [<- Hi]]; apply in_seq in Hi.
        unfold Vector.len; simpl; rewrite Hl0, Hlen by lia; apply Nat.eqb_refl.
Qed.

(** C5: [Vector::set] at [index >= len] and [Matrix::set] outside
    [rows x cols] return an out-of-bounds error and leave the structure
    as it was; in range, [set] succeeds and its only effect is to replace
    exactly the addressed element. *)
Theorem set_bounds (v : Vector.Vector T) (m : Matrix T) (i r c : nat) (x : T) :
  (Vector.len v <= i -> exists e, Vector.set v i x = (Err e, v)) /\
  (i < Vector.len v -> exists v', Vector.set v i x = (Ok tt, v') /\
                                   replaced (Vector.data v) i x (Vector.data v')) /\
  (rows m <= r \/ cols m <= c -> exists e, set m r c x = (Err e, m)) /\
  (wf m -> r < rows m -> c < cols m ->
   exists m', set m r c x = (Ok tt, m') /\ rows m' = rows m /\ cols m' = cols m /\
              replaced (data m) (r * cols m + c) x (data m')).
Proof.
  split; [|split; [|split]].
  - intros Hi; unfold Vector.set; destruct (Nat.leb_spec (Vector.len v) i); [|lia].
    eexists; reflexivity.
  - intros Hi; rewrite vector_set_in by assumption.
    eexists; split; [reflexivity|]; apply replace_nth_replaced; assumption.
  - intros Hrc; unfold set.
    destruct (Nat.leb_spec (rows m) r), (Nat.leb_spec (cols m) c); simpl;
      try (eexists; reflexivity); lia.
  - intros Hwf Hr Hc; unfold set, wf in *.
    destruct (Nat.leb_spec (rows m) r), (Nat.leb_spec (cols m) c); try lia; simpl.
    unfold index_store; rewrite vec_store_ok by nia; simpl.
    eexists; split; [reflexivity|split; [reflexivity|split; [reflexivity|]]].
    apply replace_nth_replaced; nia.
Qed.

Lemma forallb_len_ragged (rs : list (Vector.Vector T)) (n : nat) :
  forallb (fun row => Vector.len row =? n) rs = true ->
  Forall (fun b => length b = n) (map Vector.data rs).
Proof.
  intros Hf; apply Forall_forall; intros b Hb; apply in_map_iff in Hb.
  destruct Hb as [v [<- Hv]]; rewrite forallb_forall in Hf.
  apply Nat.eqb_eq, Hf; assumption.
Qed.

Lemma ragged_rejected (rs : list (Vector.Vector T)) (n : nat) :
  (exists v w, In v rs /\ In w rs /\ Vector.len v <> Vector.len w) ->
  forallb (fun row => Vector.len row =? n) rs = false.
Proof.
  intros [v [w [Hv [Hw Hvw]]]].
  destruct (forallb (fun row => Vector.len row =? n) rs) eqn:E; [|reflexivity].
  rewrite forallb_forall in E.
  apply E, Nat.eqb_eq in Hv; apply E, Nat.eqb_eq in Hw; congruence.
Qed.

Lemma from_rows_wf (rs : list (Vector.Vector T)) (m : Matrix T) :
  from_rows rs = Ok m -> wf m.
Proof.
  destruct rs as [|r0 rs]; [discriminate|]; unfold from_rows.
  destruct (forallb _ _) eqn:E; simpl; [|discriminate].
  intros Em; injection Em as <-; unfold wf; cbn [rows cols data].
  change (Vector.data r0 ++ concat (map Vector.data rs))
    with (concat (map Vector.data (r0 :: rs))).
  rewrite (length_concat_blocks (Vector.len r0)) by (apply forallb_len_ragged; assumption).
  rewrite length_map; reflexivity.
Qed.

Lemma from_columns_wf (cs : list (Vector.Vector T)) (m : Matrix T) :
  from_columns cs = Ok m -> wf m.
Proof.
  destruct cs as [|c0 cs]; [discriminate|]; unfold from_columns; cbv iota zeta.
  destruct (negb _); [discriminate|].
  set (N := Vector.len c0 * length (c0 :: cs)).
  destruct (foldM _ _ _) as [d| |] eqn:Ed; cbn [bind]; try discriminate.
  intros Em; injection Em as <-; unfold wf; cbn [rows cols data].
  apply (foldM_invariant (fun d => length d = N)) in Ed; [exact Ed| |apply repeat_length].
  intros d0 ic d1 Hd0 Hstep.
  apply (foldM_invariant (fun d => length d = N)) in Hstep; [exact Hstep| |exact Hd0].
  intros d2 iv d3 Hd2 Hs; apply length_vec_store in Hs; congruence.
Qed.

Lemma length_map_combine {A} (f : T * T -> A) (a b : list T) (n : nat) :
  length a = n -> length b = n -> length (map f (combine a b)) = n.
Proof.
  intros Ha Hb; rewrite length_map, length_combine, Ha, Hb; apply Nat.min_id.
Qed.

(** C2 (as amended): [data.len() == rows * cols] holds for the result of
    [zeroes], [ones], [identity], [from_vec], [from_rows], [from_columns],
    and, on operands that satisfy it, of [transpose], [reshape],
    [scalar_multiply], [+], [-], [*] and [hadamard_product];
    [from_vec] rejects a mismatched flat array and [from_rows] /
    [from_columns] reject an empty or ragged set with an error.  When
    [rows * cols] (for [identity(n)], [n * n]) overflows [usize],
    [zeroes], [ones], [identity], [from_vec] and [new] panic instead of
    returning a matrix.  [Matrix::new(rows, cols)] has empty data, so it
    satisfies the invariant only when [rows * cols = 0]. *)
Theorem matrix_invariant :
  (forall r c, (fits_usize (r * c) -> exists m, zeroes (T:=T) r c = Ok m /\ wf m) /\
               (~ fits_usize (r * c) -> zeroes (T:=T) r c = Panic)) /\
  (forall r c, (fits_usize (r * c) -> exists m, ones (T:=T) r c = Ok m /\ wf m) /\
               (~ fits_usize (r * c) -> ones (T:=T) r c = Panic)) /\
  (forall n, (fits_usize (n * n) -> exists I, identity (T:=T) n = Ok I /\ wf I) /\
             (~ fits_usize (n * n) -> identity (T:=T) n = Panic)) /\
  (forall r c (d : list T),
     (fits_usize (r * c) -> length d <> r * c -> exists e, from_vec r c d = Err e) /\
     (~ fits_usize (r * c) -> from_vec r c d = Panic) /\
     (forall m, from_vec r c d = Ok m -> wf m)) /\
  (forall rs : list (Vector.Vector T), (rs = [] -> exists e, from_rows rs = Err e) /\
     ((exists v w, In v rs /\ In w rs /\ Vector.len v <> Vector.len w) ->
      exists e, from_rows rs = Err e) /\
     (forall m, from_rows rs = Ok m -> wf m)) /\
  (forall cs : list (Vector.Vector T), (cs = [] -> exists e, from_columns cs = Err e) /\
     ((exists v w, In v cs /\ In w cs /\ Vector.len v <> Vector.len w) ->
      exists e, from_columns cs = Err e) /\
     (forall m, from_columns cs = Ok m -> wf m)) /\
  (forall m : Matrix T, wf m -> exists t, transpose m = Ok t /\ wf t) /\
  (forall (m : Matrix T) r c m', wf m -> reshape m r c = Ok m' -> wf m') /\
  (forall (m : Matrix T) s, wf m -> wf (scalar_multiply m s)) /\
  (forall a b c : Matrix T, wf a -> wf b -> op_add a b = Ok c -> wf c) /\
  (forall a b c : Matrix T, wf a -> wf b -> op_sub a b = Ok c -> wf c) /\
  (forall a b c : Matrix T, wf a -> wf b -> op_mul a b = Ok c -> wf c) /\
  (forall a b c : Matrix T, wf a -> wf b -> hadamard_product a b = Ok c -> wf c) /\
  (forall r c, (fits_usize (r * c) -> exists m, new (T:=T) r c = Ok m /\ (wf m <-> r * c = 0)) /\
               (~ fits_usize (r * c) -> new (T:=T) r c = Panic)).
Proof.
  split.
  { intros r c; unfold zeroes; split; intros Hf.
    - rewrite mul_usize_ok by assumption; cbn [bind].
      eexists; split; [reflexivity|unfold wf; simpl; apply repeat_length].
    - rewrite mul_usize_panic by assumption; reflexivity. }
  split.
  { intros r c; unfold ones; split; intros Hf.
    - rewrite mul_usize_ok by assumption; cbn [bind].
      eexists; split; [reflexivity|unfold wf; simpl; apply repeat_length].
    - rewrite mul_usize_panic by assumption; reflexivity. }
  split.
  { intros n; split; intros Hf.
    - destruct (identity_ok n Hf) as [I [E [_ [_ [Hwf _]]]]]; exists I; split; assumption.
    - unfold identity, zeroes; rewrite mul_usize_panic by assumption; reflexivity. }
  split.
  { intros r c d; unfold from_vec; split; [|split].
    - intros Hf Hd; rewrite mul_usize_ok by assumption; cbn [bind].
      destruct (Nat.eqb_spec (length d) (r * c)); [contradiction|].
      eexists; reflexivity.
    - intros Hf; rewrite mul_usize_panic by assumption; reflexivity.
    - intros m; destruct (mul_usize_cases r c) as [[_ E]|[_ E]]; rewrite E; cbn [bind];
        [|discriminate].
      destruct (Nat.eqb_spec (length d) (r * c)); simpl; [|discriminate].
      intros Em; injection Em as <-; assumption. }
  split.
  { intros rs; split; [|split].
    - intros ->; eexists; reflexivity.
    - intros Hrag; destruct rs as [|r0 rs']; [destruct Hrag as [v [_ [[] _]]]|].
      unfold from_rows; cbv zeta; rewrite ragged_rejected by assumption.
      eexists; reflexivity.
    - apply from_rows_wf. }
  split.
  { intros cs; split; [|split].
    - intros ->; eexists; reflexivity.
    - intros Hrag; destruct cs as [|c0 cs']; [destruct Hrag as [v [_ [[] _]]]|].
      unfold from_columns; cbv zeta; rewrite ragged_rejected by assumption.
      eexists; reflexivity.
    - apply from_columns_wf. }
  split.
  { intros m Hwf; destruct (transpose_ok m Hwf) as [t [E [_ [_ [Ht _]]]]].
    exists t; split; assumption. }
  split.
  { intros m r c m' Hwf; unfold reshape.
    destruct (mul_usize_cases (rows m) (cols m)) as [[_ E1]|[_ E1]]; rewrite E1; cbn [bind];
      [|discriminate].
    destruct (mul_usize_cases r c) as [[_ E2]|[_ E2]]; rewrite E2; cbn [bind]; [|discriminate].
    destruct (Nat.eqb_spec (rows m * cols m) (r * c)); simpl; [|discriminate].
    intros Em; injection Em as <-; unfold wf in *; simpl; congruence. }
  split.
  { intros m s Hwf; unfold wf, scalar_multiply in *; simpl; rewrite length_map; assumption. }
  split.
  { intros a b c Ha Hb; unfold op_add.
    destruct (Nat.eqb_spec (rows a) (rows b)), (Nat.eqb_spec (cols a) (cols b));
      simpl; try discriminate.
    intros Ec; injection Ec as <-; unfold wf in *; simpl.
    apply length_map_combine; congruence. }
  split.
  { intros a b c Ha Hb; unfold op_sub.
    destruct (Nat.eqb_spec (rows a) (rows b)), (Nat.eqb_spec (cols a) (cols b));
      simpl; try discriminate.
    intros Ec; injection Ec as <-; unfold wf in *; simpl.
    apply length_map_combine; congruence. }
  split.
  { intros a b c Ha Hb Ec.
    destruct (Nat.eqb_spec (cols a) (rows b)) as [Hab|Hab].
    - destruct (mul_usize_cases (rows a) (cols b)) as [[Hf _]|[Hf E]].
      + destruct (op_mul_ok a b Ha Hb Hab Hf) as [c' [E' [_ [_ [Hc' _]]]]].
        rewrite E' in Ec; injection Ec as <-; assumption.
      + unfold op_mul in Ec; rewrite Hab, Nat.eqb_refl, E in Ec; discriminate.
    - unfold op_mul in Ec; destruct (Nat.eqb_spec (cols a) (rows b)); [contradiction|discriminate]. }
  split.
  { intros a b c Ha Hb; unfold hadamard_product.
    destruct (Nat.eqb_spec (rows a) (rows b)), (Nat.eqb_spec (cols a) (cols b));
      simpl; try discriminate.
    intros Ec; injection Ec as <-; unfold wf in *; simpl.
    apply length_map_combine; congruence. }
  intros r c; unfold new; split; intros Hf.
  - rewrite mul_usize_ok by assumption; cbn [bind].
    eexists; split; [reflexivity|unfold wf; simpl; split; intros E; symmetry; assumption].
  - rewrite mul_usize_panic by assumption; reflexivity.
Qed.

End MatrixProofs.

(** ** Concrete runs at [T = Z] *)

Module Runs.
Open Scope Z_scope.

Definition m3 : Matrix.Matrix Z := Matrix.mkMatrix 3 3 [2; 0; 1; 1; 3; 2; 1; 1; 1].
Definition m23 : Matrix.Matrix Z := Matrix.mkMatrix 2 3 [1; 2; 3; 4; 5; 6].
Definition m32 : Matrix.Matrix Z := Matrix.mkMatrix 3 2 [1; 2; 3; 4; 5; 6].

Example determinant_m3 : Matrix.determinant m3 = Ok 0.
Proof. reflexivity. Qed.

Example mul_m23_m32 : Matrix.op_mul m23 m32 = Ok (Matrix.mkMatrix 2 2 [22; 28; 49; 64]).
Proof. reflexivity. Qed.

Lemma determinant_laplace_witness :
  (exists e, Matrix.determinant m23 = Err e) /\
  Matrix.determinant m3 = Ok (Spec.laplace_det 3 (Spec.entry m3)).
Proof.
  split.
  - apply (proj1 (determinant_laplace m23)); discriminate.
  - apply (proj2 (determinant_laplace m3)); [reflexivity | reflexivity | simpl; lia].
Defined.

(** C2 refuted: [Matrix::new(1, 1)] has an empty [data] of length [0],
    not [1 * 1]. *)
Lemma new_breaks_invariant :
  Matrix.new (T:=Z) 1 1 = Ok (Matrix.mkMatrix 1 1 []) /\ ~ Matrix.wf (Matrix.mkMatrix (T:=Z) 1 1 []).
Proof. split; [reflexivity|unfold Matrix.wf; simpl; discriminate]. Qed.

Lemma matrix_invariant_witness :
  (exists e, Matrix.from_vec 2 2 [1; 2; 3] = Err e) /\
  (exists e, Matrix.from_rows [Vector.mkVector [1; 2]; Vector.mkVector [3]] = Err e) /\
  (exists m, Matrix.zeroes (T:=Z) 2 3 = Ok m /\ Matrix.wf m).
Proof.
  destruct (matrix_invariant (T:=Z)) as [Hz [_ [_ [Hfv [Hfr _]]]]].
  split; [|split].
  - apply (proj1 (Hfv 2%nat 2%nat [1; 2; 3])); [reflexivity|simpl; lia].
  - apply (proj1 (proj2 (Hfr _))).
    exists (Vector.mkVector [1; 2]), (Vector.mkVector [3]).
    split; [simpl; left; reflexivity|split; [simpl; right; left; reflexivity|]].
    unfold Vector.len; simpl; lia.
  - apply (proj1 (Hz 2%nat 3%nat)); reflexivity.
Defined.

Lemma mul_product_witness :
  (exists e, Matrix.op_mul m23 m23 = Err e) /\
  (exists c, Matrix.op_mul m23 m32 = Ok c /\ Matrix.rows c = 2%nat /\ Matrix.cols c = 2%nat /\
     Matrix.wf c /\
     (forall i j, (i < 2)%nat -> (j < 2)%nat -> Spec.entry c i j = Spec.product_entry m23 m32 i j)).
Proof.
  split.
  - apply (proj1 (mul_product m23 m23)); simpl; lia.
  - apply (proj2 (proj2 (mul_product m23 m32))); reflexivity.
Defined.

(** C3 refuted: [zeroes(2^63, 0) * zeroes(0, 2)] has matching inner
    dimensions, but the buffer size [2^63 * 2] overflows [usize], so the
    product panics. *)
Lemma mul_overflow_panics :
  let a := Matrix.mkMatrix (T:=Z) (2 ^ 63)%nat 0 [] in
  let b := Matrix.mkMatrix (T:=Z) 0 2 [] in
  Matrix.wf a /\ Matrix.wf b /\ Matrix.cols a = Matrix.rows b /\ Matrix.op_mul a b = Panic.
Proof.
  intros a b; split; [|split; [reflexivity|split; [reflexivity|]]].
  - unfold Matrix.wf, a; cbn [Matrix.data Matrix.rows Matrix.cols length].
    rewrite Nat.mul_0_r; reflexivity.
  - unfold Matrix.op_mul, a, b; cbn [Matrix.rows Matrix.cols Nat.eqb negb].
    rewrite mul_usize_panic; [reflexivity|].
    unfold fits_usize, fits_usizeb; rewrite Nat2N.inj_mul, Nat2N.inj_pow.
    vm_compute; discriminate.
Qed.

Lemma rows_roundtrip_witness :
  exists rs, mapM (Matrix.row m23) (seq 0 2) = Ok (map Some rs) /\ Matrix.from_rows rs = Ok m23.
Proof. apply (rows_roundtrip m23); [reflexivity | simpl; lia]. Defined.

(** C4 refuted: a matrix with no rows, [Matrix::zeroes(0, 3)], has no
    rows to collect, and [Matrix::from_rows] of the empty list fails. *)
Lemma rows_roundtrip_no_rows :
  Matrix.zeroes (T:=Z) 0 3 = Ok (Matrix.mkMatrix 0 3 []) /\
  ~ (exists rs, mapM (Matrix.row (Matrix.mkMatrix (T:=Z) 0 3 [])) (seq 0 0) = Ok (map Some rs) /\
                Matrix.from_rows rs = Ok (Matrix.mkMatrix 0 3 [])).
Proof.
  split; [reflexivity|].
  intros [rs [E1 E2]]; simpl in E1.
  destruct rs; [discriminate|discriminate].
Qed.

Lemma set_bounds_witness :
  (exists e, Vector.set (Vector.mkVector [1; 2]) 5 7 = (Err e, Vector.mkVector [1; 2])) /\
  (exists m', Matrix.set m23 1 2 7 = (Ok tt, m') /\ Matrix.rows m' = 2%nat /\ Matrix.cols m' = 3%nat /\
     Spec.replaced (Matrix.data m23) (1 * 3 + 2) 7 (Matrix.data m')).
Proof.
  split.
  - apply (proj1 (set_bounds (Vector.mkVector [1; 2]) m23 5 0 0 7)); unfold Vector.len; simpl; lia.
  - apply (proj2 (proj2 (proj2 (set_bounds (Vector.mkVector [1; 2]) m23 0 1 2 7))));
      [reflexivity | simpl; lia | simpl; lia].
Defined.

Lemma zip_map_min_witness :
  exists x y, nth_error [1; 2; 3] 1 = Some x /\ nth_error [4; 5] 1 = Some y /\
    nth_error (Vector.data (Vector.zip_map (Vector.mkVector [1; 2; 3]) (Vector.mkVector [4; 5]) Z.add)) 1
    = Some (x + y).
Proof.
  apply (proj2 (zip_map_min (Vector.mkVector [1; 2; 3]) (Vector.mkVector [4; 5]) Z.add) 1%nat).
  simpl; lia.
Defined.

Lemma transpose_involution_witness :
  exists t, Matrix.transpose m23 = Ok t /\ Matrix.rows t = 3%nat /\ Matrix.cols t = 2%nat /\
    (forall i j, (i < 3)%nat -> (j < 2)%nat -> Spec.entry t i j = Spec.entry m23 j i) /\
    Matrix.transpose t = Ok m23.
Proof. apply transpose_involution; reflexivity. Defined.

Lemma mul_identity_right_witness :
  exists I, Matrix.identity 3 = Ok I /\ Matrix.op_mul m23 I = Ok m23.
Proof.
  change (exists I, Matrix.identity (Matrix.cols m23) = Ok I /\ Matrix.op_mul m23 I = Ok m23).
  apply (mul_identity_right (T:=Z)).
  - intros x; unfold mul, default, TMul_Z, Default_Z; lia.
  - intros x; unfold mul, from_i32, TMul_Z, FromI32_Z; lia.
  - intros x; unfold add, default, TAdd_Z, Default_Z; lia.
  - intros x; unfold add, default, TAdd_Z, Default_Z; lia.
  - reflexivity.
  - reflexivity.
  - reflexivity.
Defined.

(** C8 refuted: [zeroes(0, 2^32)] satisfies the data invariant, but
    [Identity(2^32)] panics: [2^32 * 2^32] overflows [usize]. *)
Lemma identity_overflow_panics :
  let m := Matrix.mkMatrix (T:=Z) 0 (2 ^ 32)%nat [] in
  Matrix.wf m /\ Matrix.identity (T:=Z) (Matrix.cols m) = Panic.
Proof.
  intros m; split; [reflexivity|].
  unfold Matrix.identity, Matrix.zeroes, m; cbn [Matrix.cols].
  rewrite mul_usize_panic; [reflexivity|].
  unfold fits_usize, fits_usizeb; rewrite Nat2N.inj_mul, Nat2N.inj_pow.
  vm_compute; discriminate.
Qed.

Lemma vector_assign_frame_witness :
  Vector.add_assign (Vector.mkVector [6; 8]) (Vector.mkVector []) = Vector.mkVector [6; 8] /\
  Vector.sub_assign (Vector.mkVector [6; 8]) (Vector.mkVector []) = Vector.mkVector [6; 8] /\
  Vector.mul_assign (Vector.mkVector [6; 8]) (Vector.mkVector []) = Vector.mkVector [6; 8] /\
  Vector.div_assign (Vector.mkVector [6; 8]) (Vector.mkVector []) = Vector.mkVector [6; 8].
Proof.
  apply (proj2 (proj2 (proj2 (proj2
           (vector_assign_frame (Vector.mkVector [6; 8]) (Vector.mkVector [])))))).
  reflexivity.
Defined.

End Runs.

(** * Further properties of [Vector] *)

Section VectorExtras.
Context {T : Type}.
Import Vector Spec.

(** X1: [Vector::get] is [None] exactly from index [len()] on; after an
    in-range [set(i, x)], [get(i)] is [Some x] and every other index reads
    as before. *)
Theorem vector_get_set (v : Vector T) (i : nat) (x : T) :
  (get v i = None <-> len v <= i) /\
  (i < len v -> exists v', set v i x = (Ok tt, v') /\ get v' i = Some x /\
                           (forall k, k <> i -> get v' k = get v k)).
Proof.
  split.
  - unfold get, len; apply nth_error_None.
  - intros Hi; rewrite vector_set_in by assumption.
    destruct (replace_nth_replaced (data v) i x Hi) as [_ [Hx Ho]].
    eexists; split; [reflexivity|split; [exact Hx|]].
    intros k Hk; apply Ho; assumption.
Qed.

(** X2: [Vector::from_elem(e, n)] reads [Some e] at every index below
    [n] and [None] from [n] on. *)
Theorem from_elem_get (e : T) (n i : nat) :
  get (from_elem e n) i = if i <? n then Some e else None.
Proof.
  unfold get, from_elem; simpl.
  destruct (Nat.ltb_spec i n).
  - apply nth_error_repeat; assumption.
  - apply nth_error_None; rewrite repeat_length; assumption.
Qed.

(** X3: [a + b], [a - b], [a * b] and [a / b] on vectors have length
    [min(a.len(), b.len())] and combine the elements at each index below
    it; no error is raised on a length mismatch. *)
Theorem vector_binops `{TAdd T} `{TSub T} `{TMul T} `{TDiv T} (a b : Vector T) (i : nat) :
  len (op_add a b) = Nat.min (len a) (len b) /\
  len (op_sub a b) = Nat.min (len a) (len b) /\
  len (op_mul a b) = Nat.min (len a) (len b) /\
  len (op_div a b) = Nat.min (len a) (len b) /\
  (i < Nat.min (len a) (len b) ->
   exists x y, get a i = Some x /\ get b i = Some y /\
     get (op_add a b) i = Some (add x y) /\ get (op_sub a b) i = Some (sub x y) /\
     get (op_mul a b) i = Some (mul x y) /\ get (op_div a b) i = Some (div x y)).
Proof.
  unfold len, op_add, op_sub, op_mul, op_div, get; simpl.
  rewrite !length_map, !length_combine.
  split; [reflexivity|split; [reflexivity|split; [reflexivity|split; [reflexivity|]]]].
  intros Hi.
  destruct (nth_error_zip add (data a) (data b) i Hi) as [x [y [Hx [Hy Ha]]]].
  exists x, y; split; [assumption|split; [assumption|split; [assumption|]]].
  destruct (nth_error_zip sub (data a) (data b) i Hi) as [x' [y' [Hx' [Hy' Hs]]]].
  destruct (nth_error_zip mul (data a) (data b) i Hi) as [x'' [y'' [Hx'' [Hy'' Hm]]]].
  destruct (nth_error_zip div (data a) (data b) i Hi) as [x3 [y3 [Hx3 [Hy3 Hd]]]].
  rewrite Hx in Hx', Hx'', Hx3; rewrite Hy in Hy', Hy'', Hy3.
  injection Hx' as <-; injection Hy' as <-; injection Hx'' as <-; injection Hy'' as <-.
  injection Hx3 as <-; injection Hy3 as <-.
  split; [assumption|split; assumption].
Qed.

Section SumLaws.
Context `{Default T} `{TAdd T}.
Hypothesis add_assoc : forall x y z : T, add x (add y z) = add (add x y) z.
Hypothesis add_comm : forall x y : T, add x y = add y x.
Hypothesis add_default_l : forall x : T, add default x = x.

Lemma fold_add_acc (l : list T) (acc : T) :
  fold_left (fun acc x => add acc x) l acc = add acc (fold_left (fun acc x => add acc x) l default).
Proof.
  revert acc; induction l as [|x l IH]; intros acc; simpl.
  - rewrite add_comm, add_default_l; reflexivity.
  - rewrite IH, (IH (add default x)), add_default_l, add_assoc; reflexivity.
Qed.

(** X4: over a commutative monoid with [T::default()] as its unit, the
    sum of [a + b] is [a.sum() + b.sum()] for vectors of equal length. *)
Theorem sum_op_add (a b : Vector T) :
  len a = len b -> sum (op_add a b) = add (sum a) (sum b).
Proof.
  unfold sum, op_add, len; simpl; destruct a as [a], b as [b]; simpl.
  revert b; induction a as [|x a IH]; intros [|y b] Hl; simpl in *; try discriminate.
  - rewrite add_default_l; reflexivity.
  - injection Hl as Hl.
    rewrite !add_default_l.
    rewrite (fold_add_acc _ (add x y)), (fold_add_acc _ x), (fold_add_acc _ y), IH by assumption.
    set (A := fold_left (fun acc x0 => add acc x0) a default).
    set (B := fold_left (fun acc x0 => add acc x0) b default).
    rewrite <- !add_assoc; f_equal.
    rewrite (add_comm y (add A B)), <- add_assoc, (add_comm B y); reflexivity.
Qed.

End SumLaws.

End VectorExtras.

Section VectorOrder.
Import Vector.
Open Scope Z_scope.

Lemma min_fold_Z (l : list Z) (acc : Z) :
  exists r, foldM (fun acc y => c <- cmp_unwrap acc y;;
                                Ok (match c with Gt => y | _ => acc end)) l acc = Ok r /\
    (r = acc \/ In r l) /\ r <= acc /\ (forall y, In y l -> r <= y).
Proof.
  revert acc; induction l as [|y l IH]; intros acc; simpl.
  - exists acc; split; [reflexivity|split; [left; reflexivity|split; [lia|intros _ []]]].
  - unfold cmp_unwrap, partial_cmp, PartialOrd_Z; simpl.
    destruct (Z.compare_spec acc y) as [E|E|E]; simpl;
      [destruct (IH acc) as [r [Hr [Hor [Hle Hall]]]]
      |destruct (IH acc) as [r [Hr [Hor [Hle Hall]]]]
      |destruct (IH y) as [r [Hr [Hor [Hle Hall]]]]];
      exists r; (split; [assumption|]);
      (split; [destruct Hor; auto|]);
      (split; [lia|]); intros z [<-|Hz]; try lia; apply Hall; assumption.
Qed.

Lemma max_fold_Z (l : list Z) (acc : Z) :
  exists r, foldM (fun acc y => c <- cmp_unwrap acc y;;
                                Ok (match c with Gt => acc | _ => y end)) l acc = Ok r /\
    (r = acc \/ In r l) /\ acc <= r /\ (forall y, In y l -> y <= r).
Proof.
  revert acc; induction l as [|y l IH]; intros acc; simpl.
  - exists acc; split; [reflexivity|split; [left; reflexivity|split; [lia|intros _ []]]].
  - unfold cmp_unwrap, partial_cmp, PartialOrd_Z; simpl.
    destruct (Z.compare_spec acc y) as [E|E|E]; simpl;
      [destruct (IH y) as [r [Hr [Hor [Hle Hall]]]]
      |destruct (IH y) as [r [Hr [Hor [Hle Hall]]]]
      |destruct (IH acc) as [r [Hr [Hor [Hle Hall]]]]];
      exists r; (split; [assumption|]);
      (split; [destruct Hor; auto|]);
      (split; [lia|]); intros z [<-|Hz]; try lia; apply Hall; assumption.
Qed.

(** X5: on a totally ordered element type ([i32]-like, here [Z]),
    [min()] and [max()] never panic, are [None] exactly on the empty
    vector, and otherwise return an element of the vector that is a lower
    (resp. upper) bound of all its elements. *)
Theorem vector_min_max_Z (v : Vector Z) :
  (min v = Ok None <-> data v = []) /\
  (max v = Ok None <-> data v = []) /\
  (data v <> [] -> exists x, min v = Ok (Some x) /\ In x (data v) /\
                             (forall y, In y (data v) -> x <= y)) /\
  (data v <> [] -> exists x, max v = Ok (Some x) /\ In x (data v) /\
                             (forall y, In y (data v) -> y <= x)).
Proof.
  unfold min, max; destruct v as [[|x l]]; cbn [data].
  - split; [split; reflexivity|split; [split; reflexivity|split; intros H; contradiction]].
  - destruct (min_fold_Z l x) as [r [Hr [Hor [Hle Hall]]]].
    destruct (max_fold_Z l x) as [s [Hs [Hos [Hge Hall']]]].
    rewrite Hr, Hs; cbn [bind].
    split; [split; discriminate|split; [split; discriminate|split]].
    + intros _; exists r; split; [reflexivity|split].
      * destruct Hor as [->|Hin]; [left; reflexivity|right; assumption].
      * intros y [<-|Hy]; [assumption|apply Hall; assumption].
    + intros _; exists s; split; [reflexivity|split].
      * destruct Hos as [->|Hin]; [left; reflexivity|right; assumption].
      * intros y [<-|Hy]; [assumption|apply Hall'; assumption].
Qed.

End VectorOrder.

Section VectorArray.
Context {T : Type}.
Import Vector.

Lemma firstn_replace_nth (l : list T) (s : nat) (x : T) :
  s < length l -> firstn (S s) (replace_nth l s x) = firstn s l ++ [x].
Proof.
  revert s; induction l as [|y l IH]; intros [|s] Hs; simpl in *; try lia.
  - reflexivity.
  - rewrite IH by lia; reflexivity.
Qed.

Lemma to_array_fold (d : list T) (s : nat) (l : list T) :
  s + length d = length l ->
  foldM (fun arr iv => vec_store arr (fst iv) (snd iv)) (combine (seq s (length d)) d) l
  = Ok (firstn s l ++ d).
Proof.
  revert s l; induction d as [|x d IH]; intros s l Hl; simpl in Hl |- *.
  - rewrite app_nil_r, firstn_all2 by lia; reflexivity.
  - rewrite vec_store_ok by lia; cbn [bind].
    rewrite IH by (rewrite length_replace_nth; lia).
    rewrite firstn_replace_nth by lia; rewrite <- app_assoc; reflexivity.
Qed.

(** X6: [to_array::<N>] never panics; it yields the elements of the
    vector, in order, exactly when the vector has [N] elements, and
    [None] otherwise. *)
Theorem to_array_spec `{Default T} (N : nat) (v : Vector T) :
  to_array N v = if len v =? N then Ok (Some (data v)) else Ok None.
Proof.
  unfold to_array; destruct (Nat.eqb_spec (len v) N) as [E|E]; [|reflexivity].
  unfold len in *.
  rewrite to_array_fold by (rewrite repeat_length; lia); reflexivity.
Qed.

End VectorArray.

Section MatrixExtras.
Context {T : Type} `{Default T} `{FromI32 T} `{TAdd T} `{TSub T} `{TMul T}.
Import Matrix Spec.

Lemma get_ok (m : Matrix T) (r c : nat) :
  wf m -> r < rows m -> c < cols m -> get m r c = Ok (Some (entry m r c)).
Proof.
  intros Hwf Hr Hc; unfold get.
  destruct (Nat.leb_spec (rows m) r); [lia|].
  destruct (Nat.leb_spec (cols m) c); [lia|]; simpl.
  rewrite index_ok by assumption; reflexivity.
Qed.

(** X7: [Matrix::get(r, c)] is [None] exactly out of range and reads
    entry [(r, c)] in range; after an in-range [set(r, c, x)] the matrix
    keeps its shape and invariant, [get(r, c)] is [Some x] and every other
    in-range position reads as before. *)
Theorem matrix_get_set (m : Matrix T) (r c : nat) (x : T) :
  (get m r c = Ok None <-> rows m <= r \/ cols m <= c) /\
  (wf m -> r < rows m -> c < cols m ->
   get m r c = Ok (Some (entry m r c)) /\
   exists m', set m r c x = (Ok tt, m') /\ rows m' = rows m /\ cols m' = cols m /\ wf m' /\
     get m' r c = Ok (Some x) /\
     (forall r' c', r' < rows m -> c' < cols m -> (r', c') <> (r, c) ->
                    get m' r' c' = get m r' c')).
Proof.
  split.
  - unfold get; split.
    + destruct (Nat.leb_spec (rows m) r); [intros; left; assumption|].
      destruct (Nat.leb_spec (cols m) c); [intros; right; assumption|]; simpl.
      unfold index, vec_index; destruct (nth_error _ _); simpl; discriminate.
    + intros [Hr|Hc].
      * apply Nat.leb_le in Hr; rewrite Hr; reflexivity.
      * apply Nat.leb_le in Hc; rewrite Hc, orb_true_r; reflexivity.
  - intros Hwf Hr Hc; split; [apply get_ok; assumption|].
    unfold set.
    destruct (Nat.leb_spec (rows m) r); [lia|].
    destruct (Nat.leb_spec (cols m) c); [lia|]; simpl.
    unfold index_store; rewrite vec_store_ok by (unfold wf in Hwf; nia); cbn [bind].
    set (m' := mkMatrix (rows m) (cols m) (replace_nth (data m) (r * cols m + c) x)).
    assert (Hw' : wf m') by (unfold wf, m'; simpl; rewrite length_replace_nth; exact Hwf).
    exists m'; split; [reflexivity|split; [reflexivity|split; [reflexivity|split; [assumption|]]]].
    split.
    + rewrite get_ok by assumption; unfold entry, m'; simpl.
      rewrite nth_replace_nth_same by (unfold wf in Hwf; nia); reflexivity.
    + intros r' c' Hr' Hc' Hne.
      rewrite !get_ok by assumption; unfold entry, m'; simpl.
      rewrite nth_replace_nth_other; [reflexivity|].
      intros E; destruct (pos_inj (cols m) r' c' r c) as [-> ->]; try assumption.
      apply Hne; reflexivity.
Qed.

Lemma slice_concat_blocks (w : nat) (ls : list (list T)) (j : nat) :
  Forall (fun b => length b = w) ls ->
  firstn w (skipn (j * w) (concat ls)) = nth j ls [].
Proof.
  intros Hall; revert j; induction Hall as [|b ls Hb Hall IH]; intros j.
  - rewrite skipn_nil, firstn_nil; destruct j; reflexivity.
  - destruct j as [|j]; simpl concat.
    + change (0 * w) with 0; rewrite skipn_O, firstn_app, Hb, Nat.sub_diag, firstn_O, app_nil_r.
      cbn [nth]; apply firstn_all2; rewrite Hb; apply le_n.
    + rewrite skipn_app, skipn_all2 by (simpl; lia); simpl.
      replace (w + j * w - length b) with (j * w) by lia; apply IH.
Qed.

(** X8: [Matrix::column(j)] is [None] from [j = cols] on; in range it
    is the vector of the entries [(0, j) .. (rows - 1, j)], which is
    also row [j] of the transpose. *)
Theorem column_spec (m : Matrix T) (j : nat) :
  (cols m <= j -> column m j = Ok None) /\
  (wf m -> j < cols m ->
   column m j = Ok (Some (Vector.mkVector (map (fun i => entry m i j) (seq 0 (rows m))))) /\
   exists t, transpose m = Ok t /\ row t j = column m j).
Proof.
  split.
  - intros Hj; unfold column; apply Nat.leb_le in Hj; rewrite Hj; reflexivity.
  - intros Hwf Hj.
    assert (Hcol : column m j = Ok (Some (Vector.mkVector (map (fun i => entry m i j) (seq 0 (rows m)))))).
    { unfold column; destruct (Nat.leb_spec (cols m) j); [lia|].
      rewrite (mapM_ok _ (fun i => entry m i j)); [reflexivity|].
      intros i Hi; apply in_seq in Hi; apply index_ok; (assumption || lia). }
    split; [exact Hcol|].
    destruct (transpose_ok m Hwf) as [t [Et [Hrt [Hct [Hwt _]]]]].
    exists t; split; [exact Et|].
    rewrite Hcol, row_ok by (assumption || lia).
    rewrite transpose_data in Et by assumption; injection Et as <-; cbn [rows cols data].
    rewrite slice_concat_blocks.
    + rewrite (nth_map_seq (fun c => map (fun r => entry m r c) (seq 0 (rows m)))) by assumption.
      reflexivity.
    + apply Forall_forall; intros b Hb; apply in_map_iff in Hb.
      destruct Hb as [c [<- _]]; rewrite length_map, length_seq; reflexivity.
Qed.

(** X10: [reshape(r, c)] panics when [rows * cols] or [r * c] overflows
    [usize]; otherwise it fails with an error exactly when the two
    products differ, and when they agree it keeps the data, preserves the
    invariant, and reshaping back gives the original matrix. *)
Theorem reshape_spec (m : Matrix T) (r c : nat) :
  (~ fits_usize (rows m * cols m) \/ ~ fits_usize (r * c) -> reshape m r c = Panic) /\
  (fits_usize (rows m * cols m) -> fits_usize (r * c) -> rows m * cols m <> r * c ->
   exists e, reshape m r c = Err e) /\
  (fits_usize (rows m * cols m) -> rows m * cols m = r * c ->
   exists m', reshape m r c = Ok m' /\ rows m' = r /\ cols m' = c /\ data m' = data m /\
     (wf m -> wf m') /\ reshape m' (rows m) (cols m) = Ok m).
Proof.
  unfold reshape; split; [|split].
  - intros [Hf|Hf].
    + rewrite mul_usize_panic by assumption; reflexivity.
    + destruct (mul_usize_cases (rows m) (cols m)) as [[_ E]|[_ E]]; rewrite E; cbn [bind];
        [|reflexivity].
      rewrite mul_usize_panic by assumption; reflexivity.
  - intros Hf1 Hf2 Hne; rewrite !mul_usize_ok by assumption; cbn [bind].
    destruct (Nat.eqb_spec (rows m * cols m) (r * c)); [contradiction|].
    eexists; reflexivity.
  - intros Hf E.
    assert (Hf2 : fits_usize (r * c)) by (rewrite <- E; exact Hf).
    rewrite !mul_usize_ok by assumption; cbn [bind].
    rewrite E, Nat.eqb_refl; simpl negb; cbv iota.
    eexists; split; [reflexivity|split; [reflexivity|split; [reflexivity|split; [reflexivity|split]]]].
    + unfold wf; simpl; rewrite <- E; trivial.
    + cbn [rows cols data]; rewrite !mul_usize_ok by assumption; cbn [bind].
      rewrite <- E, Nat.eqb_refl; simpl negb; cbv iota.
      destruct m; reflexivity.
Qed.

Lemma nth_map_combine {A} (f : T * T -> A) (a b : list T) (q : nat) (z : A) :
  q < length a -> length a = length b ->
  nth q (map f (combine a b)) z = f (nth q a default, nth q b default).
Proof.
  intros Hq Hab.
  rewrite (nth_indep _ z (f (default, default)))
    by (rewrite length_map, length_combine; lia).
  rewrite map_nth, combine_nth by assumption; reflexivity.
Qed.

(** X11: [+], [-] and [hadamard_product] on matrices fail with an error
    on a shape mismatch; on two well-formed matrices of one shape they
    give a well-formed matrix of that shape combining the entries
    position by position. *)
Theorem elementwise_ops (a b : Matrix T) :
  ((rows a <> rows b \/ cols a <> cols b) ->
   (exists e, op_add a b = Err e) /\ (exists e, op_sub a b = Err e) /\
   (exists e, hadamard_product a b = Err e)) /\
  (wf a -> wf b -> rows a = rows b -> cols a = cols b ->
   exists s d h, op_add a b = Ok s /\ op_sub a b = Ok d /\ hadamard_product a b = Ok h /\
     wf s /\ wf d /\ wf h /\
     rows s = rows a /\ cols s = cols a /\ rows d = rows a /\ cols d = cols a /\
     rows h = rows a /\ cols h = cols a /\
     (forall i j, i < rows a -> j < cols a ->
        entry s i j = add (entry a i j) (entry b i j) /\
        entry d i j = sub (entry a i j) (entry b i j) /\
        entry h i j = mul (entry a i j) (entry b i j))).
Proof.
  unfold op_add, op_sub, hadamard_product; split.
  - intros Hne.
    destruct (Nat.eqb_spec (rows a) (rows b)); destruct (Nat.eqb_spec (cols a) (cols b));
      try (destruct Hne; contradiction);
      simpl; (split; [eexists; reflexivity|split; eexists; reflexivity]).
  - intros Ha Hb Er Ec.
    destruct (Nat.eqb_spec (rows a) (rows b)); [|contradiction].
    destruct (Nat.eqb_spec (cols a) (cols b)); [|contradiction].
    cbn [negb orb].
    unfold wf in *.
    assert (Hab : length (data a) = length (data b)) by congruence.
    do 3 eexists; split; [reflexivity|split; [reflexivity|split; [reflexivity|]]].
    do 3 (split; [unfold wf; simpl; apply length_map_combine; congruence|]).
    do 6 (split; [reflexivity|]).
    intros i j Hi Hj; unfold entry; cbn [rows cols data].
    rewrite !nth_map_combine by (assumption || nia); simpl.
    rewrite <- Ec; split; [reflexivity|split; reflexivity].
Qed.

(** X12: [dot] fails with an error on a shape mismatch; otherwise it is
    the [sum] of the elements of [hadamard_product]. *)
Theorem dot_hadamard (a b : Matrix T) :
  ((rows a <> rows b \/ cols a <> cols b) -> exists e, dot a b = Err e) /\
  (rows a = rows b -> cols a = cols b ->
   dot a b = (h <- hadamard_product a b;; Ok (Vector.sum (Vector.mkVector (data h))))).
Proof.
  unfold dot, hadamard_product; split.
  - intros Hne.
    destruct (Nat.eqb_spec (rows a) (rows b)); destruct (Nat.eqb_spec (cols a) (cols b));
      try (destruct Hne; contradiction); simpl; eexists; reflexivity.
  - intros Er Ec; rewrite Er, Ec, !Nat.eqb_refl; reflexivity.
Qed.

(** X13: [trace] fails with an error on a non-square matrix; on a
    well-formed square matrix it is the sum of the diagonal entries
    accumulated from [T::default()], and the transpose has the same
    trace. *)
Theorem trace_spec (m : Matrix T) :
  (rows m <> cols m -> exists e, trace m = Err e) /\
  (wf m -> rows m = cols m ->
   trace m = Ok (fold_left (fun acc i => add acc (entry m i i)) (seq 0 (rows m)) default) /\
   exists t, transpose m = Ok t /\ trace t = trace m).
Proof.
  assert (Hsq : forall m : Matrix T, wf m -> rows m = cols m ->
            trace m = Ok (fold_left (fun acc i => add acc (entry m i i)) (seq 0 (rows m)) default)).
  { intros m0 Hwf E; unfold trace; rewrite E, Nat.eqb_refl; simpl negb; cbv iota.
    apply foldM_ok; intros acc i Hi; apply in_seq in Hi.
    rewrite index_ok by (assumption || lia); reflexivity. }
  split.
  - intros Hne; unfold trace; destruct (Nat.eqb_spec (rows m) (cols m)); [contradiction|].
    eexists; reflexivity.
  - intros Hwf E; split; [apply Hsq; assumption|].
    destruct (transpose_ok m Hwf) as [t [Et [Hrt [Hct [Hwt Ht]]]]].
    exists t; split; [exact Et|].
    rewrite !Hsq by (assumption || congruence); f_equal.
    rewrite Hrt, <- E; apply fold_left_ext_in; intros acc i Hi; apply in_seq in Hi.
    rewrite Ht by lia; reflexivity.
Qed.

End MatrixExtras.

Section MatrixLaws.
Context {T : Type} `{Default T} `{FromI32 T} `{TAdd T} `{TSub T} `{TMul T}.
Import Matrix Spec.

Lemma fold_left_fixed {A B} (f : A -> B -> A) (l : list B) (a : A) :
  (forall x, In x l -> f a x = a) -> fold_left f l a = a.
Proof.
  induction l as [|x l IH]; intros Hf; simpl; [reflexivity|].
  rewrite (Hf x (or_introl eq_refl)); apply IH; intros; apply Hf; right; assumption.
Qed.

(** X14: [Matrix::identity(n)] panics when [n * n] overflows [usize];
    otherwise it succeeds with a well-formed [n x n] matrix holding
    [T::from(1)] on the diagonal and [T::default()] elsewhere, and it is
    its own transpose. *)
Theorem identity_spec (n : nat) :
  (~ fits_usize (n * n) -> identity (T:=T) n = Panic) /\
  (fits_usize (n * n) ->
   exists I, identity n = Ok I /\ rows I = n /\ cols I = n /\ wf I /\
    (forall i j, i < n -> j < n -> entry I i j = if i =? j then from_i32 1%Z else default) /\
    transpose I = Ok I).
Proof.
  split.
  { intros Hf; unfold identity, zeroes; rewrite mul_usize_panic by assumption; reflexivity. }
  intros Hf.
  destruct (identity_ok n Hf) as [I [EI [Hr [Hc [Hw He]]]]].
  exists I; do 4 (split; [assumption|]); split; [assumption|].
  destruct (transpose_ok I Hw) as [t [Et [Hrt [Hct [Hwt Ht]]]]].
  rewrite Et; f_equal.
  apply matrix_ext; try assumption; try congruence.
  intros i j Hi Hj; rewrite Hrt, Hc in Hi; rewrite Hct, Hr in Hj.
  rewrite Ht by congruence.
  rewrite !He by assumption.
  destruct (Nat.eqb_spec j i), (Nat.eqb_spec i j); try reflexivity; lia.
Qed.

(** X16: the Hadamard product with the matrix holding [s] everywhere is
    [scalar_multiply(s)]. *)
Theorem hadamard_constant (m : Matrix T) (s : T) :
  wf m ->
  hadamard_product m (mkMatrix (rows m) (cols m) (repeat s (rows m * cols m)))
  = Ok (scalar_multiply m s).
Proof.
  intros Hwf; unfold hadamard_product, scalar_multiply, wf in *; cbn [rows cols data].
  rewrite !Nat.eqb_refl; cbn [negb orb]; f_equal; f_equal.
  rewrite <- Hwf; clear Hwf; induction (data m) as [|x l IH]; simpl; [reflexivity|].
  rewrite IH; reflexivity.
Qed.

Section IdentityLaws.
Hypothesis mul_one_l : forall x : T, mul (from_i32 1%Z) x = x.
Hypothesis mul_default_l : forall x : T, mul default x = default.
Hypothesis add_default_l : forall x : T, add default x = x.
Hypothesis add_default_r : forall x : T, add x default = x.
Hypothesis sub_default_r : forall x : T, sub x default = x.

Lemma laplace_det_delta (n : nat) :
  1 <= n -> laplace_det n (fun i j => if i =? j then from_i32 1%Z else default) = from_i32 1%Z.
Proof.
  induction n as [|n IH]; intros Hn; [lia|].
  destruct n as [|[|n2]].
  - reflexivity.
  - simpl; rewrite mul_one_l, mul_default_l, sub_default_r; reflexivity.
  - set (f := fun i j => if i =? j then from_i32 1%Z else default) in *.
    change (laplace_det (S (S (S n2))) f) with
      (fold_left (fun acc j =>
                   if Nat.even j then add acc (mul (f 0 j) (laplace_det (S (S n2)) (minor f j)))
                   else sub acc (mul (f 0 j) (laplace_det (S (S n2)) (minor f j))))
                (0 :: seq 1 (S (S n2))) default).
    cbn [fold_left Nat.even].
    rewrite (laplace_det_ext _ (minor f 0) f)
      by (intros i k _ _; unfold minor, skip, f; reflexivity).
    rewrite IH by lia.
    replace (f 0 0) with (from_i32 (T:=T) 1%Z) by reflexivity.
    rewrite mul_one_l, add_default_l.
    apply fold_left_fixed; intros j Hj; apply in_seq in Hj.
    replace (f 0 j) with (default (T:=T)) by (unfold f; destruct j; [lia|reflexivity]).
    destruct (Nat.even j); rewrite mul_default_l;
      [apply add_default_r|apply sub_default_r].
Qed.

(** X15: when [T::from(1)] is a left unit and [T::default()] a left zero
    of [*] and a unit of [+] and [-], the determinant of
    [identity(n)] is [T::from(1)] for every [n >= 1]. *)
Theorem determinant_identity (n : nat) :
  1 <= n -> fits_usize (n * n) ->
  exists I, identity n = Ok I /\ determinant I = Ok (from_i32 1%Z).
Proof.
  intros Hn Hf.
  destruct (identity_ok n Hf) as [I [EI [Hr [Hc [Hw He]]]]].
  exists I; split; [assumption|].
  unfold determinant; rewrite Hr, Hc, Nat.eqb_refl; cbn [negb].
  unfold wf in Hw; rewrite Hr, Hc in Hw.
  rewrite det_sq_correct by assumption; f_equal.
  rewrite <- (laplace_det_delta n Hn); apply laplace_det_ext.
  intros i j Hi Hj; rewrite <- He by assumption; unfold entry; rewrite Hc; reflexivity.
Qed.

End IdentityLaws.

Section ZeroLaws.
Hypothesis mul_default_r : forall x : T, mul x default = default.
Hypothesis add_default_r : forall x : T, add x default = x.

(** X17: when [T::default()] is a right zero of [*] and a right unit of
    [+], multiplying a well-formed [r x c] matrix by [zeroes(c, k)]
    gives [zeroes(r, k)] (both sizes [c * k] and [r * k] fitting in
    [usize]). *)
Theorem mul_zeroes (m : Matrix T) (k : nat) :
  wf m -> fits_usize (cols m * k) -> fits_usize (rows m * k) ->
  exists z, zeroes (cols m) k = Ok z /\ op_mul m z = zeroes (rows m) k.
Proof.
  intros Hwf Hf1 Hf2; unfold zeroes at 1 2; rewrite !mul_usize_ok by assumption; cbn [bind].
  eexists; split; [reflexivity|].
  assert (Hz : forall r c, wf (mkMatrix (T:=T) r c (repeat default (r * c))))
    by (intros r c; unfold wf; simpl; apply repeat_length).
  destruct (op_mul_ok m (mkMatrix (cols m) k (repeat default (cols m * k))) Hwf (Hz _ _)
              eq_refl Hf2)
    as [c [Ec [Hr [Hc [Hw He]]]]].
  rewrite Ec; f_equal; apply matrix_ext; try assumption; try apply Hz.
  intros i j Hi Hj; rewrite He by (rewrite <- ?Hr, <- ?Hc; assumption).
  assert (Hze : forall r c n i j, entry (mkMatrix (T:=T) r c (repeat default n)) i j = default)
    by (intros; unfold entry; simpl; apply nth_repeat).
  rewrite Hze; unfold product_entry.
  apply fold_left_fixed; intros q _.
  rewrite Hze, mul_default_r; apply add_default_r.
Qed.

End ZeroLaws.

End MatrixLaws.

Section FromColumns.
Context {T : Type} `{Default T} `{FromI32 T} `{TAdd T} `{TSub T} `{TMul T}.
Import Matrix Spec.

Lemma foldM_nested_dep {A B C} (F : B -> C -> A -> outcome A) (g : B -> list C)
      (l : list B) (a : A) :
  foldM (fun a x => foldM (fun a y => F x y a) (g x) a) l a
  = foldM (fun a p => F (fst p) (snd p) a) (flat_map (fun x => map (pair x) (g x)) l) a.
Proof.
  revert a; induction l as [|x l IH]; intros a; simpl; [reflexivity|].
  rewrite foldM_app, foldM_map; simpl.
  destruct (foldM (fun a y => F x y a) (g x) a); simpl; auto.
Qed.

Lemma foldM_not_err {A B} (f : A -> B -> outcome A) (l : list B) (a : A) (e : string) :
  (forall a x e, f a x <> Err e) -> foldM f l a <> Err e.
Proof.
  intros Hf; revert a; induction l as [|x l IH]; intros a; simpl; [discriminate|].
  destruct (f a x) as [a'|e'|] eqn:Ef; simpl; [apply IH| |discriminate].
  exfalso; apply (Hf a x e' Ef).
Qed.

Lemma in_combine_seq {A} (d : list A) (s i : nat) (x : A) :
  In (i, x) (combine (seq s (length d)) d) <-> s <= i /\ nth_error d (i - s) = Some x.
Proof.
  revert s; induction d as [|y d IH]; intros s; simpl.
  - split; [intros []|intros [_ E]; destruct (i - s); discriminate].
  - rewrite IH; split.
    + intros [E|[Hle Hx]].
      * injection E as <- <-; rewrite Nat.sub_diag; split; [lia|reflexivity].
      * split; [lia|]; replace (i - s) with (S (i - S s)) by lia; exact Hx.
    + intros [Hle Hx].
      destruct (Nat.eq_dec i s) as [->|Hne].
      * left; rewrite Nat.sub_diag in Hx; injection Hx as <-; reflexivity.
      * right; split; [lia|]; replace (i - s) with (S (i - S s)) in Hx by lia; exact Hx.
Qed.

(** X9: [Matrix::from_columns(cs)] fails exactly when
    [Matrix::from_rows(cs)] does, and otherwise it is the transpose of
    [from_rows(cs)]. *)
Theorem from_columns_transpose (cs : list (Vector.Vector T)) :
  ((exists e, from_rows cs = Err e) <-> (exists e, from_columns cs = Err e)) /\
  (forall m, from_rows cs = Ok m -> exists t, transpose m = Ok t /\ from_columns cs = Ok t).
Proof.
  split.
  - destruct cs as [|c0 cs]; [split; intros _; eexists; reflexivity|].
    unfold from_rows, from_columns; cbv zeta.
    destruct (forallb _ _) eqn:Ef; cbn [negb].
    + split; intros [e E].
      * discriminate.
      * revert E; match goal with |- context [foldM ?f ?l ?a] => destruct (foldM f l a) eqn:Efold end;
          cbn [bind]; intros E; try discriminate.
        exfalso; revert Efold; apply foldM_not_err; intros d [j c] e'.
        apply foldM_not_err; intros d' [i x] e''.
        unfold vec_store; destruct (_ <? _); discriminate.
    + split; intros _; eexists; reflexivity.
  - intros m Em.
    pose proof (from_rows_wf cs m Em) as Hwf.
    destruct (transpose_ok m Hwf) as [t [Et [Hrt [Hct [Hwt Ht]]]]].
    exists t; split; [exact Et|].
    destruct cs as [|c0 cs']; [discriminate|].
    unfold from_rows in Em; unfold from_columns; cbv iota zeta beta in Em |- *.
    set (cs := c0 :: cs') in *; clearbody cs.
    destruct (forallb (fun row => Vector.len row =? Vector.len c0) cs) eqn:Ef;
      cbn [negb] in Em |- *; [|discriminate].
    injection Em as <-; cbn [rows cols data] in *.
    set (R := Vector.len c0) in *; set (N := length cs) in *.
    assert (Hlen : forall c, In c cs -> Vector.len c = R).
    { intros c Hc; rewrite forallb_forall in Ef; apply Nat.eqb_eq, Ef; assumption. }
    rewrite (foldM_nested_dep (fun ic iv d => vec_store d (fst iv * N + fst ic) (snd iv))
               (fun ic => combine (seq 0 (Vector.len (snd ic))) (Vector.data (snd ic)))).
    set (P := flat_map _ _).
    assert (HP : forall p, In p P ->
              fst (fst p) < N /\ nth_error cs (fst (fst p)) = Some (snd (fst p)) /\
              fst (snd p) < R /\ nth_error (Vector.data (snd (fst p))) (fst (snd p)) = Some (snd (snd p))).
    { intros [[j c] [i x]] Hp; apply in_flat_map in Hp.
      destruct Hp as [[j' c'] [Hjc Hix]]; apply in_map_iff in Hix.
      destruct Hix as [[i' x'] [Eq Hix]]; injection Eq as <- <- <- <-; cbn [fst snd] in *.
      apply in_combine_seq in Hjc; rewrite Nat.sub_0_r in Hjc; destruct Hjc as [_ Hj].
      apply in_combine_seq in Hix; rewrite Nat.sub_0_r in Hix; destruct Hix as [_ Hi].
      assert (Hc : In c' cs) by (eapply nth_error_In; eassumption).
      split; [apply nth_error_Some; congruence|split; [assumption|split; [|assumption]]].
      rewrite <- (Hlen c' Hc); apply nth_error_Some; congruence. }
    destruct (foldM_store default (fun p => fst (snd p) * N + fst (fst p)) (fun p => snd (snd p))
                P (repeat default (R * N))) as [l' [E [Hl' [Hset _]]]].
    + intros p Hp; destruct (HP p Hp) as [Hj [_ [Hi _]]]; rewrite repeat_length; nia.
    + intros p p' Hp Hp' Eq.
      destruct (HP p Hp) as [Hj [Ec [Hi Ex]]], (HP p' Hp') as [Hj' [Ec' [Hi' Ex']]].
      destruct (pos_inj N _ _ _ _ Hj Hj' Eq) as [Ei Ej].
      rewrite Ej, Ec' in Ec; injection Ec as Ec; rewrite Ei, <- Ec, Ex' in Ex.
      injection Ex as Ex; symmetry; exact Ex.
    + cbv beta in E; rewrite E; cbn [bind]; f_equal.
      apply matrix_ext; [unfold wf; simpl; rewrite Hl', repeat_length; reflexivity
                        |assumption|simpl; congruence|simpl; congruence|].
      intros i j Hi Hj; cbn [rows cols] in Hi, Hj.
      rewrite Ht by (rewrite ?Hct, ?Hrt in *; assumption).
      assert (Hjc : j < length cs) by exact Hj.
      set (c := nth j cs c0).
      assert (Hc : nth_error cs j = Some c) by (apply nth_error_nth'; assumption).
      assert (Hcin : In c cs) by (eapply nth_error_In; eassumption).
      assert (Hic : i < length (Vector.data c)) by (change (i < Vector.len c); rewrite (Hlen c Hcin); exact Hi).
      unfold entry; cbn [rows cols data].
      rewrite (Hset ((j, c), (i, nth i (Vector.data c) default))).
      * cbn [snd].
        rewrite (nth_concat_blocks R (map Vector.data cs) j i default).
        -- rewrite (nth_indep _ [] (Vector.data c0)) by (rewrite length_map; assumption).
           rewrite map_nth; reflexivity.
        -- apply forallb_len_ragged; assumption.
        -- assumption.
      * apply in_flat_map; exists (j, c); split.
        -- apply in_combine_seq; rewrite Nat.sub_0_r; split; [lia|assumption].
        -- apply in_map_iff; exists (i, nth i (Vector.data c) default); split; [reflexivity|].
           apply in_combine_seq; rewrite Nat.sub_0_r; split; [lia|].
           apply nth_error_nth'; assumption.
Qed.

End FromColumns.

(** ** Concrete runs of the further properties on [Z] *)

Module ExtraRuns.
Open Scope Z_scope.
Import Runs.

Ltac z_law := intros; cbv [add sub mul default from_i32 TAdd_Z TSub_Z TMul_Z Default_Z FromI32_Z]; lia.

Lemma vector_get_set_witness :
  Vector.get (Vector.mkVector [1; 2; 3]) 5 = None /\
  exists v', Vector.set (Vector.mkVector [1; 2; 3]) 1 9 = (Ok tt, v') /\ Vector.get v' 1 = Some 9 /\
    (forall k, k <> 1%nat -> Vector.get v' k = Vector.get (Vector.mkVector [1; 2; 3]) k).
Proof.
  split.
  - apply (proj2 (proj1 (vector_get_set (Vector.mkVector [1; 2; 3]) 5 0))).
    unfold Vector.len; simpl; lia.
  - apply (proj2 (vector_get_set (Vector.mkVector [1; 2; 3]) 1 9)).
    unfold Vector.len; simpl; lia.
Defined.

Lemma vector_binops_witness :
  exists x y, Vector.get (Vector.mkVector [1; 2; 3]) 1 = Some x /\
    Vector.get (Vector.mkVector [4; 5]) 1 = Some y /\
    Vector.get (Vector.op_add (Vector.mkVector [1; 2; 3]) (Vector.mkVector [4; 5])) 1 = Some (x + y) /\
    Vector.get (Vector.op_sub (Vector.mkVector [1; 2; 3]) (Vector.mkVector [4; 5])) 1 = Some (x - y) /\
    Vector.get (Vector.op_mul (Vector.mkVector [1; 2; 3]) (Vector.mkVector [4; 5])) 1 = Some (x * y) /\
    Vector.get (Vector.op_div (Vector.mkVector [1; 2; 3]) (Vector.mkVector [4; 5])) 1 = Some (Z.quot x y).
Proof.
  apply (proj2 (proj2 (proj2 (proj2
           (vector_binops (Vector.mkVector [1; 2; 3]) (Vector.mkVector [4; 5]) 1))))).
  unfold Vector.len; simpl; lia.
Defined.

Lemma sum_op_add_witness :
  Vector.sum (Vector.op_add (Vector.mkVector [1; 2; 3]) (Vector.mkVector [4; 5; 6]))
  = Vector.sum (Vector.mkVector [1; 2; 3]) + Vector.sum (Vector.mkVector [4; 5; 6]).
Proof.
  apply (sum_op_add (T:=Z)); [z_law|z_law|z_law|reflexivity].
Defined.

Lemma vector_min_max_Z_witness :
  (exists x, Vector.min (Vector.mkVector [3; 1; 2]) = Ok (Some x) /\ In x [3; 1; 2] /\
             (forall y, In y [3; 1; 2] -> x <= y)) /\
  (exists x, Vector.max (Vector.mkVector [3; 1; 2]) = Ok (Some x) /\ In x [3; 1; 2] /\
             (forall y, In y [3; 1; 2] -> y <= x)).
Proof.
  split.
  - apply (proj1 (proj2 (proj2 (vector_min_max_Z (Vector.mkVector [3; 1; 2]))))); discriminate.
  - apply (proj2 (proj2 (proj2 (vector_min_max_Z (Vector.mkVector [3; 1; 2]))))); discriminate.
Defined.

Lemma matrix_get_set_witness :
  Matrix.get m23 1 2 = Ok (Some (Spec.entry m23 1 2)) /\
  exists m', Matrix.set m23 1 2 7 = (Ok tt, m') /\ Matrix.rows m' = Matrix.rows m23 /\
    Matrix.cols m' = Matrix.cols m23 /\ Matrix.wf m' /\ Matrix.get m' 1 2 = Ok (Some 7) /\
    (forall r' c', (r' < Matrix.rows m23)%nat -> (c' < Matrix.cols m23)%nat -> (r', c') <> (1%nat, 2%nat) ->
                   Matrix.get m' r' c' = Matrix.get m23 r' c').
Proof.
  apply (proj2 (matrix_get_set m23 1 2 7)); [reflexivity|simpl; lia|simpl; lia].
Defined.

Lemma column_spec_witness :
  Matrix.column m23 1 = Ok (Some (Vector.mkVector (map (fun i => Spec.entry m23 i 1) (seq 0 (Matrix.rows m23))))) /\
  exists t, Matrix.transpose m23 = Ok t /\ Matrix.row t 1 = Matrix.column m23 1.
Proof.
  apply (proj2 (column_spec m23 1)); [reflexivity|simpl; lia].
Defined.

Lemma from_columns_transpose_witness :
  exists t, Matrix.transpose m23 = Ok t /\
    Matrix.from_columns [Vector.mkVector [1; 2; 3]; Vector.mkVector [4; 5; 6]] = Ok t.
Proof.
  apply (proj2 (from_columns_transpose [Vector.mkVector [1; 2; 3]; Vector.mkVector [4; 5; 6]]) m23).
  reflexivity.
Defined.

Lemma reshape_spec_witness :
  (exists e, Matrix.reshape m23 4 2 = Err e) /\
  exists m', Matrix.reshape m23 3 2 = Ok m' /\ Matrix.rows m' = 3%nat /\ Matrix.cols m' = 2%nat /\
    Matrix.data m' = Matrix.data m23 /\ (Matrix.wf m23 -> Matrix.wf m') /\
    Matrix.reshape m' (Matrix.rows m23) (Matrix.cols m23) = Ok m23.
Proof.
  split.
  - apply (proj1 (proj2 (reshape_spec m23 4 2))); [reflexivity|reflexivity|simpl; lia].
  - apply (proj2 (proj2 (reshape_spec m23 3 2))); reflexivity.
Defined.

Lemma elementwise_ops_witness :
  ((exists e, Matrix.op_add m23 m32 = Err e) /\ (exists e, Matrix.op_sub m23 m32 = Err e) /\
   (exists e, Matrix.hadamard_product m23 m32 = Err e)) /\
  exists s d h, Matrix.op_add m23 m23 = Ok s /\ Matrix.op_sub m23 m23 = Ok d /\
    Matrix.hadamard_product m23 m23 = Ok h /\
    Matrix.wf s /\ Matrix.wf d /\ Matrix.wf h /\
    Matrix.rows s = Matrix.rows m23 /\ Matrix.cols s = Matrix.cols m23 /\
    Matrix.rows d = Matrix.rows m23 /\ Matrix.cols d = Matrix.cols m23 /\
    Matrix.rows h = Matrix.rows m23 /\ Matrix.cols h = Matrix.cols m23 /\
    (forall i j, (i < Matrix.rows m23)%nat -> (j < Matrix.cols m23)%nat ->
       Spec.entry s i j = Spec.entry m23 i j + Spec.entry m23 i j /\
       Spec.entry d i j = Spec.entry m23 i j - Spec.entry m23 i j /\
       Spec.entry h i j = Spec.entry m23 i j * Spec.entry m23 i j).
Proof.
  split.
  - apply (proj1 (elementwise_ops m23 m32)); left; simpl; lia.
  - apply (proj2 (elementwise_ops m23 m23)); reflexivity.
Defined.

Lemma dot_hadamard_witness :
  (exists e, Matrix.dot m23 m32 = Err e) /\
  Matrix.dot m23 m23 = (h <- Matrix.hadamard_product m23 m23;;
                        Ok (Vector.sum (Vector.mkVector (Matrix.data h)))).
Proof.
  split.
  - apply (proj1 (dot_hadamard m23 m32)); left; simpl; lia.
  - apply (proj2 (dot_hadamard m23 m23)); reflexivity.
Defined.

Lemma trace_spec_witness :
  (exists e, Matrix.trace m23 = Err e) /\
  Matrix.trace m3 = Ok (fold_left (fun acc i => acc + Spec.entry m3 i i) (seq 0 (Matrix.rows m3)) 0) /\
  exists t, Matrix.transpose m3 = Ok t /\ Matrix.trace t = Matrix.trace m3.
Proof.
  split.
  - apply (proj1 (trace_spec m23)); simpl; lia.
  - apply (proj2 (trace_spec m3)); reflexivity.
Defined.

Lemma determinant_identity_witness :
  exists I, Matrix.identity 3 = Ok I /\ Matrix.determinant I = Ok 1.
Proof.
  refine (determinant_identity (T:=Z) _ _ _ _ _ 3 _ _);
    [z_law|z_law|z_law|z_law|z_law|lia|reflexivity].
Defined.

Lemma identity_spec_witness :
  fits_usize (2 * 2) /\
  exists I, Matrix.identity 2 = Ok I /\ Matrix.rows I = 2%nat /\ Matrix.cols I = 2%nat /\ Matrix.wf I /\
    (forall i j, (i < 2)%nat -> (j < 2)%nat -> Spec.entry I i j = if (i =? j)%nat then 1 else 0) /\
    Matrix.transpose I = Ok I.
Proof.
  split; [reflexivity|].
  exact (proj2 (identity_spec (T:=Z) 2) eq_refl).
Defined.

Lemma hadamard_constant_witness :
  Matrix.hadamard_product m23 (Matrix.mkMatrix (Matrix.rows m23) (Matrix.cols m23)
                                 (repeat 5 (Matrix.rows m23 * Matrix.cols m23)))
  = Ok (Matrix.scalar_multiply m23 5).
Proof. apply hadamard_constant; reflexivity. Defined.

Lemma mul_zeroes_witness :
  exists z, Matrix.zeroes (Matrix.cols m23) 4 = Ok z /\
    Matrix.op_mul m23 z = Matrix.zeroes (Matrix.rows m23) 4.
Proof. apply (mul_zeroes (T:=Z)); [z_law|z_law|reflexivity|reflexivity|reflexivity]. Defined.

End ExtraRuns.
